(** * Low-Energy-Meter: the sampling/control pipeline

    A shallow embedding of [src/mcp320x.c] and [src/low-energy-meter.c]:
    the MCP320x sample decoding, the charge/discharge loop of the sampling
    thread as a trace-producing state machine, the start-up path of [main],
    and the bounded channel between the sampling and the logger thread.

    Part I holds the definitions, module by module; Part II the properties. *)

From Stdlib Require Import ZArith List Bool Lia String Ascii Sorted.
From Stdlib Require Import DecimalString DecimalPos DecimalZ.
Import ListNotations.
Local Open Scope Z_scope.

(** * Part I: the program *)

(** ** Fixed-width integers of the C code *)

Module CInt.

Definition to_uint8 (z : Z) : Z := z mod 256.
Definition to_uint16 (z : Z) : Z := z mod 65536.
Definition to_uint64 (z : Z) : Z := z mod 2 ^ 64.

(** Conversion to [int16_t] as gcc defines it: reduction modulo 2^16 into
    the signed range. *)
Definition to_int16 (z : Z) : Z :=
  let u := z mod 65536 in
  if u <? 32768 then u else u - 65536.

Definition is_uint8 (z : Z) : Prop := 0 <= z < 256.

(** Conversion to [int] (32 bits) and to a 64-bit signed type, two's
    complement. *)
Definition to_int32 (z : Z) : Z :=
  let u := z mod 2 ^ 32 in
  if u <? 2 ^ 31 then u else u - 2 ^ 32.

Definition to_int64 (z : Z) : Z :=
  let u := z mod 2 ^ 64 in
  if u <? 2 ^ 63 then u else u - 2 ^ 64.

Definition fits_int64 (z : Z) : Prop := - 2 ^ 63 <= z < 2 ^ 63.

End CInt.

(** ** mcp320x.c *)

Module Mcp320x.
Import CInt.

Definition startbit : Z := 0x80.
Definition sebit : Z := 0x40.

(** Modelled from the spec: the header [mcp320x.h] declaring
    [enum channel_singleended] is missing.  The constructors are the
    enumerators the switch of [get_sample_singleended] names; [CH_other]
    stands for any other value of the enumeration's integer type, which the
    switch sends to its [default] branch. *)
Inductive channel_singleended : Type :=
| CH0 | CH1 | CH2 | CH3 | CH4 | CH5 | CH6 | CH7
| CH_other.

(** The three bytes [bcm2835_spi_transfern] leaves in [data]. *)
Record spi_reply : Type := mkReply { rx0 : Z; rx1 : Z; rx2 : Z }.

Definition reply_ok (r : spi_reply) : Prop :=
  is_uint8 (rx0 r) /\ is_uint8 (rx1 r) /\ is_uint8 (rx2 r).

(** The configuration byte [sample] puts in [data[0]] before the transfer. *)
Definition config_byte (channel_config : Z) : Z :=
  to_uint8 (Z.lor (Z.lor startbit sebit) (Z.shiftl channel_config 3)).

(** [sample]: the value assembled from the bytes the transfer returned.
    [s] is a [uint16_t]: every assignment to it truncates, and the casts
    of the operands are those of the source. *)
Definition sample (channel_config : Z) (data : spi_reply) : Z :=
  let s := to_uint16 (Z.shiftl (to_uint16 (Z.land (rx0 data) 0x01)) 11) in
  let s := to_uint16 (Z.lor s (Z.shiftl (to_uint16 (rx1 data)) 3)) in
  let s :=
    to_uint16 (Z.lor s (to_uint16 (Z.shiftr (Z.land (rx2 data) 0xe0) 5))) in
  to_int16 s.

(** The [uint8_t channel] the switch selects; [None] is the [default]
    branch. *)
Definition channel_number (adc_channel : channel_singleended) : option Z :=
  match adc_channel with
  | CH0 => Some 0
  | CH1 => Some 1
  | CH2 => Some 2
  | CH3 => Some 3
  | CH4 => Some 4
  | CH5 => Some 5
  | CH6 => Some 6
  | CH7 => Some 7
  | CH_other => None
  end.

Definition get_sample_singleended
    (adc_channel : channel_singleended) (data : spi_reply) : Z :=
  match channel_number adc_channel with
  | Some channel => sample channel data
  | None => -1
  end.

Definition valid_channel (c : channel_singleended) : Prop := c <> CH_other.

(** The 12-bit code written out arithmetically: bit 0 of the first byte,
    the whole second byte, the three top bits of the third. *)
Definition code12 (data : spi_reply) : Z :=
  2048 * (rx0 data mod 2) + 8 * rx1 data + rx2 data / 32.

(** Modelled from the spec: the header [mcp320x.h] declaring
    [enum channel_differential] is missing.  The constructors are the
    enumerators the switch of [get_sample_diff] names; [CHD_other] stands
    for any other value, which the switch sends to its [default] branch. *)
Inductive channel_differential : Type :=
| CH0CH1 | CH1CH0 | CH2CH3 | CH3CH2 | CH4CH5 | CH5CH4 | CH6CH7 | CH7CH6
| CHD_other.

Definition diff_channel_number (adc_channel : channel_differential)
  : option Z :=
  match adc_channel with
  | CH0CH1 => Some 0
  | CH1CH0 => Some 1
  | CH2CH3 => Some 2
  | CH3CH2 => Some 3
  | CH4CH5 => Some 4
  | CH5CH4 => Some 5
  | CH6CH7 => Some 6
  | CH7CH6 => Some 7
  | CHD_other => None
  end.

Definition get_sample_diff
    (adc_channel : channel_differential) (data : spi_reply) : Z :=
  match diff_channel_number adc_channel with
  | Some channel => sample channel data
  | None => -1
  end.

(** The byte each entry point hands to the transfer in [data[0]]; [None]
    when it returns before calling [sample]. *)
Definition request_singleended (c : channel_singleended) : option Z :=
  option_map config_byte (channel_number c).

Definition request_diff (c : channel_differential) : option Z :=
  option_map config_byte (diff_channel_number c).

(** Three reply bytes that carry the 12-bit code [v] where [sample] looks
    for it, all other bits zero. *)
Definition reply_of_code (v : Z) : spi_reply :=
  mkReply (v / 2048) ((v / 8) mod 256) ((v mod 8) * 32).

End Mcp320x.

(** ** The ring entry and the bounded channel *)

Module Ring.

(** Modelled from the spec: [ring.h] is missing; the fields are those
    [sampling_thread_loop] assigns and [logger_thread_loop] reads, with the
    types of [log_sample]'s parameters ([uint64_t], [uint64_t],
    [int16_t]). *)
Record ring_entry : Type := mkEntry {
  timestamp : Z;
  value : Z;
  epoch : Z
}.

(** Modelled from the spec: [ring.c] ([ring_init], [ring_put], [ring_get])
    is missing.  The channel is a fixed-capacity FIFO of sample records with
    one producer and one consumer; [put] blocks while the buffer is full and
    [get] blocks while it is empty.  The buffer is the list of queued
    records, oldest first; a call that has to block is [None]: it changes
    nothing and the caller stays where it is. *)
Definition ring : Type := list ring_entry.

Definition ring_init : ring := [].

Definition ring_put (RING_SIZE : nat) (r : ring) (e : ring_entry)
  : option ring :=
  if (List.length r <? RING_SIZE)%nat then Some (r ++ [e]) else None.

Definition ring_get (r : ring) : option (ring_entry * ring) :=
  match r with
  | [] => None
  | e :: r' => Some (e, r')
  end.

(** The two threads around the channel: the producer still has [pending]
    to put (in production order), the consumer has got [consumed]. *)
Record system : Type := mkSystem {
  pending : list ring_entry;
  buffer : ring;
  consumed : list ring_entry
}.

Inductive turn : Type := Producer | Consumer.

(** One scheduling decision: the chosen thread attempts its call. *)
Definition step (RING_SIZE : nat) (s : system) (t : turn) : system :=
  match t with
  | Producer =>
      match pending s with
      | [] => s
      | e :: rest =>
          match ring_put RING_SIZE (buffer s) e with
          | Some r' => mkSystem rest r' (consumed s)
          | None => s
          end
      end
  | Consumer =>
      match ring_get (buffer s) with
      | Some (e, r') => mkSystem (pending s) r' (consumed s ++ [e])
      | None => s
      end
  end.

Definition run (RING_SIZE : nat) (s : system) (sched : list turn) : system :=
  fold_left (step RING_SIZE) sched s.

Definition start (records : list ring_entry) : system :=
  mkSystem records ring_init [].

(** Everything produced, in order: what was consumed, then what is queued,
    then what is still to be put. *)
Definition contents (s : system) : list ring_entry :=
  consumed s ++ buffer s ++ pending s.

(** The schedule that lets the two threads alternate [n] times. *)
Fixpoint alternate (n : nat) : list turn :=
  match n with
  | O => []
  | S n' => Producer :: Consumer :: alternate n'
  end.

End Ring.

(** ** low-energy-meter.c *)

Module Meter.
Import CInt Mcp320x Ring.

(** [charge_pin] is [RPI_GPIO_P1_18], [discharge_pin] is
    [RPI_GPIO_P1_16]. *)
Inductive relay_pin : Type := charge_pin | discharge_pin.

Definition other_pin (p : relay_pin) : relay_pin :=
  match p with
  | charge_pin => discharge_pin
  | discharge_pin => charge_pin
  end.

Definition adc_channel : channel_singleended := CH0.

Definition DEFAULT_TASK_PRIORITY : Z := 49.

Record timespec : Type := mkTimespec { tv_sec : Z; tv_nsec : Z }.

Inductive thread_id : Type := sampling_thread | logger_thread.

(** What the program does to the outside world, in program order. *)
Inductive event : Type :=
| EGpioFselOutp (p : relay_pin)
| EGpioClr (p : relay_pin)
| EGpioSet (p : relay_pin)
| ENanosleepRel (t : timespec)
| ENanosleepAbs (t : timespec)
| EClockGettime
| EGetSample (c : channel_singleended)
| ESampleError
| ERingPut (e : ring_entry)
| ESchedSetscheduler (priority : Z)
| EPerror
| EUsage
| EUnknownOption
| EBcmInit
| ESpiBegin
| ESpiChipSelect
| ESpiSetClockDivider (divider : Z)
| ESpiSetDataMode
| ESpiSetBitOrder
| ESpiSetChipSelectPolarity
| EFopen (path : string)
| ERingInit
| EMlockall
| EStackPrefault
| EPthreadCreate (t : thread_id)
| ESignal
| EFclose
| ESpiEnd
| EBcmClose
| EExit (status : Z).

(** The globals [die] looks at. *)
Record resources : Type := mkResources {
  fout_open : bool;
  is_spi_open : bool;
  is_bcm_open : bool
}.

Definition die (g : resources) (status : Z) : list event :=
  (if fout_open g then [EFclose] else []) ++
  (if is_spi_open g then [ESpiEnd] else []) ++
  (if is_bcm_open g then [EBcmClose] else []) ++
  [EExit status].

(** [time_t] and [long] are taken as 64-bit two's complement integers (an
    LP64 platform); an addition that leaves their range wraps around, as
    the compiled code does. *)
Definition next_sampling_time (tlast interval : timespec) : timespec :=
  let sec := to_int64 (tv_sec tlast + tv_sec interval) in
  let nsec := to_int64 (tv_nsec tlast + tv_nsec interval) in
  if nsec >=? 1000000000
  then mkTimespec (to_int64 (sec + 1)) (to_int64 (nsec - 1000000000))
  else mkTimespec sec nsec.

Definition to_nanosec (t : timespec) : Z :=
  let t_ns := to_uint64 (1000000000 * to_uint64 (tv_sec t)) in
  to_uint64 (t_ns + to_uint64 (tv_nsec t)).

(** The configuration [main] leaves in the globals. *)
Record config : Type := mkConfig {
  threshold_upper : Z;
  threshold_lower : Z;
  sampling_interval : timespec;
  task_priority : Z
}.

Inductive State : Type := charging | discharging.

(** The locals of [sampling_thread_loop] that live across iterations. *)
Record locals : Type := mkLocals {
  state : State;
  epoch : Z;
  tsample : timespec
}.

(** What one iteration reads from the outside: the value
    [get_sample_singleended] returns, the clock at the time stamp, and the
    clock at the [clock_gettime] that follows a switch to discharging. *)
Record reading : Type := mkReading {
  sample_value : Z;
  tnow : timespec;
  tclock : timespec
}.

(** The settle delay: [tv_sec = 0], [tv_nsec = 100000000]. *)
Definition twait : timespec := mkTimespec 0 100000000.

Definition switch_relays (from to : relay_pin) : list event :=
  [EGpioClr from; ENanosleepRel twait; EGpioSet to].

(** One pass through the body of [while (true)]. *)
Definition loop_body (cfg : config) (st : locals) (i : reading)
  : locals * list event :=
  let sample := sample_value i in
  let taken := [EGetSample adc_channel; EClockGettime] in
  if sample =? -1 then
    (st, taken ++ [ESampleError])
  else
    match state st with
    | charging =>
        if sample >=? threshold_upper cfg then
          (mkLocals discharging (to_uint64 (epoch st + 1)) (tclock i),
           taken ++ switch_relays charge_pin discharge_pin ++ [EClockGettime])
        else
          let t := next_sampling_time (tsample st) (sampling_interval cfg) in
          (mkLocals charging (epoch st) t, taken ++ [ENanosleepAbs t])
    | discharging =>
        let entry := mkEntry (to_nanosec (tnow i)) sample (epoch st) in
        if sample <=? threshold_lower cfg then
          (mkLocals charging (epoch st) (tsample st),
           taken ++ [ERingPut entry]
                 ++ switch_relays discharge_pin charge_pin)
        else
          let t := next_sampling_time (tsample st) (sampling_interval cfg) in
          (mkLocals discharging (epoch st) t,
           taken ++ [ERingPut entry; ENanosleepAbs t])
    end.

(** The first [length inputs] iterations of the loop. *)
Fixpoint loop (cfg : config) (st : locals) (inputs : list reading)
  : locals * list event :=
  match inputs with
  | [] => (st, [])
  | i :: rest =>
      let (st1, ev) := loop_body cfg st i in
      let (st2, evs) := loop cfg st1 rest in
      (st2, ev ++ evs)
  end.

(** The locals when the loop is entered; [t0] is what the first
    [clock_gettime] stored in [tsample]. *)
Definition initial_locals (t0 : timespec) : locals := mkLocals charging 0 t0.

Definition thread_prologue : list event :=
  switch_relays discharge_pin charge_pin ++ [EClockGettime].

(** [sampling_thread_loop], cut after [length inputs] iterations.  The
    thread runs with all resources open. *)
Definition sampling_thread_loop
    (cfg : config) (sched_ok : bool) (t0 : timespec) (inputs : list reading)
  : list event :=
  ESchedSetscheduler (task_priority cfg) ::
  if sched_ok then
    thread_prologue ++ snd (loop cfg (initial_locals t0) inputs)
  else
    EPerror :: die (mkResources true true true) (-1).

(** The locals with which each reading of a run is processed. *)
Fixpoint processed (cfg : config) (st : locals) (inputs : list reading)
  : list (locals * reading) :=
  match inputs with
  | [] => []
  | i :: rest => (st, i) :: processed cfg (fst (loop_body cfg st i)) rest
  end.

(** The records a trace pushes to the channel, in order. *)
Fixpoint puts (tr : list event) : list ring_entry :=
  match tr with
  | [] => []
  | ERingPut e :: tr' => e :: puts tr'
  | _ :: tr' => puts tr'
  end.

(** The record the discharging branch builds for a reading. *)
Definition entry_of (p : locals * reading) : ring_entry :=
  mkEntry (to_nanosec (tnow (snd p))) (sample_value (snd p)) (epoch (fst p)).

Definition is_discharging (s : State) : bool :=
  match s with discharging => true | charging => false end.

Definition recorded (p : locals * reading) : bool :=
  is_discharging (state (fst p)) && negb (sample_value (snd p) =? -1).

Definition is_sleep_abs (e : event) : bool :=
  match e with ENanosleepAbs _ => true | _ => false end.

Definition is_relay_command (e : event) : bool :=
  match e with EGpioClr _ | EGpioSet _ => true | _ => false end.

(** *** The relays as the trace commands them *)

Record relays : Type := mkRelays {
  charge_closed : bool;
  discharge_closed : bool
}.

Definition command (r : relays) (e : event) : relays :=
  match e with
  | EGpioClr charge_pin => mkRelays false (discharge_closed r)
  | EGpioClr discharge_pin => mkRelays (charge_closed r) false
  | EGpioSet charge_pin => mkRelays true (discharge_closed r)
  | EGpioSet discharge_pin => mkRelays (charge_closed r) true
  | _ => r
  end.

Definition relays_after (r : relays) (tr : list event) : relays :=
  fold_left command tr r.

Definition at_most_one_closed (r : relays) : bool :=
  negb (charge_closed r && discharge_closed r).

Definition setup_gpio : list event :=
  [EGpioFselOutp charge_pin; EGpioClr charge_pin;
   EGpioFselOutp discharge_pin; EGpioClr discharge_pin].

(** The relay each state keeps closed. *)
Definition relay_of (s : State) : relay_pin :=
  match s with
  | charging => charge_pin
  | discharging => discharge_pin
  end.

Definition relays_of (s : State) : relays :=
  match s with
  | charging => mkRelays true false
  | discharging => mkRelays false true
  end.

(** After every prefix of the trace at most one relay is commanded
    closed. *)
Definition always_at_most_one_closed (r : relays) (tr : list event) : Prop :=
  forall n, at_most_one_closed (relays_after r (firstn n tr)) = true.

(** Wherever the trace closes a relay, the two events right before it are
    the opening of the other relay and the settle delay. *)
Definition break_before_make (tr : list event) : Prop :=
  forall pre p post,
    tr = pre ++ EGpioSet p :: post ->
    exists pre', pre = pre' ++ [EGpioClr (other_pin p); ENanosleepRel twait].

(** The branch that ends a charging phase: a reading other than [-1], taken
    while charging, at or above the upper threshold. *)
Definition charging_completes (cfg : config) (st : locals) (i : reading)
  : bool :=
  negb (sample_value i =? -1) && negb (is_discharging (state st))
  && (sample_value i >=? threshold_upper cfg).

(** The five branches of the loop body, by their conditions. *)
Inductive branch (cfg : config) (st : locals) (i : reading) : Prop :=
| BError : sample_value i = -1 -> branch cfg st i
| BCharged :
    sample_value i <> -1 -> state st = charging ->
    threshold_upper cfg <= sample_value i -> branch cfg st i
| BCharging :
    sample_value i <> -1 -> state st = charging ->
    sample_value i < threshold_upper cfg -> branch cfg st i
| BDischarged :
    sample_value i <> -1 -> state st = discharging ->
    sample_value i <= threshold_lower cfg -> branch cfg st i
| BDischarging :
    sample_value i <> -1 -> state st = discharging ->
    threshold_lower cfg < sample_value i -> branch cfg st i.

(** *** Start-up: [main] *)

(** [atoi] of the C library on the strings [main] gives it: leading white
    space, an optional sign, then decimal digits up to the first other
    character.  It is [(int) strtol (s, NULL, 10)]: [strtol] reads all the
    digits and saturates at [LONG_MAX] and [LONG_MIN] (64 bits), and the
    conversion to [int] keeps the low 32 bits. *)
Definition is_space (c : ascii) : bool :=
  let n := nat_of_ascii c in
  ((n =? 32) || ((9 <=? n) && (n <=? 13)))%nat.

Definition digit_of (c : ascii) : option Z :=
  let n := Z.of_nat (nat_of_ascii c) in
  if (48 <=? n) && (n <=? 57) then Some (n - 48) else None.

Fixpoint atoi_digits (acc : Z) (s : string) : Z :=
  match s with
  | EmptyString => acc
  | String c s' =>
      match digit_of c with
      | Some d => atoi_digits (10 * acc + d) s'
      | None => acc
      end
  end.

Fixpoint skip_spaces (s : string) : string :=
  match s with
  | EmptyString => EmptyString
  | String c s' => if is_space c then skip_spaces s' else s
  end.

Definition LONG_MAX : Z := 9223372036854775807.
Definition LONG_MIN : Z := -9223372036854775808.

Definition strtol (s : string) : Z :=
  match skip_spaces s with
  | String c s' =>
      if (c =? "-")%char then Z.max LONG_MIN (- atoi_digits 0 s')
      else if (c =? "+")%char then Z.min LONG_MAX (atoi_digits 0 s')
      else Z.min LONG_MAX (atoi_digits 0 (String c s'))
  | EmptyString => 0
  end.

Definition atoi (s : string) : Z := to_int32 (strtol s).

(** The five [char *] locals the option loop fills. *)
Record arguments : Type := mkArguments {
  sampling_frequency_arg : option string;
  logfile_arg : option string;
  threshold_upper_arg : option string;
  threshold_lower_arg : option string;
  task_priority_arg : option string
}.

Definition no_arguments : arguments := mkArguments None None None None None.

(** The [switch] on what [getopt] returned; [None] is [case '?'], which
    dies. *)
Definition store_option (a : arguments) (c : ascii) (optarg : string)
  : option arguments :=
  if (c =? "f")%char then
    Some (mkArguments (Some optarg) (logfile_arg a) (threshold_upper_arg a)
            (threshold_lower_arg a) (task_priority_arg a))
  else if (c =? "o")%char then
    Some (mkArguments (sampling_frequency_arg a) (Some optarg)
            (threshold_upper_arg a) (threshold_lower_arg a)
            (task_priority_arg a))
  else if (c =? "l")%char then
    Some (mkArguments (sampling_frequency_arg a) (logfile_arg a)
            (threshold_upper_arg a) (Some optarg) (task_priority_arg a))
  else if (c =? "u")%char then
    Some (mkArguments (sampling_frequency_arg a) (logfile_arg a)
            (Some optarg) (threshold_lower_arg a) (task_priority_arg a))
  else if (c =? "p")%char then
    Some (mkArguments (sampling_frequency_arg a) (logfile_arg a)
            (threshold_upper_arg a) (threshold_lower_arg a) (Some optarg))
  else if (c =? "?")%char then None
  else Some a.

(** The [while ((c = getopt (...)) != -1)] loop over the successive results
    of [getopt], each with its [optarg]. *)
Fixpoint parse_options (a : arguments) (opts : list (ascii * string))
  : option arguments :=
  match opts with
  | [] => Some a
  | (c, optarg) :: rest =>
      match store_option a c optarg with
      | Some a' => parse_options a' rest
      | None => None
      end
  end.

(** What the calls [main] checks return. *)
Record environment : Type := mkEnvironment {
  bcm2835_init_ok : bool;
  fopen_ok : bool;
  mlockall_ok : bool;
  sampling_thread_created : bool;
  logger_thread_created : bool;
  signal_installed : bool
}.

(** [main] either leaves through one of its own calls of [die] or gets
    past all its checks, having created both threads on the configuration
    it computed, and goes on to [pthread_join].  (The threads are not part
    of [main]'s trace: a thread that ends the process through its own
    [die] cuts the trace short.) *)
Inductive outcome : Type :=
| Exited (status : Z)
| Running (cfg : config).

Definition nothing_open : resources := mkResources false false false.
Definition bus_open : resources := mkResources false true true.
Definition all_open : resources := mkResources true true true.

(** [250000000/spi_frequency + 0.5] with [spi_frequency = 500000], cast to
    [uint16_t]. *)
Definition divider : Z := 500.

Definition setup_spi : list event :=
  [ESpiBegin; ESpiChipSelect; ESpiSetClockDivider divider; ESpiSetDataMode;
   ESpiSetBitOrder; ESpiSetChipSelectPolarity].

(** [main] from [bcm2835_init] on. *)
Definition bring_up (cfg : config) (logfile : string) (env : environment)
  : list event * outcome :=
  if negb (bcm2835_init_ok env) then
    (EBcmInit :: die nothing_open (-1), Exited (-1))
  else
    let tr := EBcmInit :: setup_spi ++ setup_gpio ++ [EFopen logfile] in
    if negb (fopen_ok env) then
      (tr ++ EPerror :: die bus_open (-1), Exited (-1))
    else
      let tr := tr ++ [ERingInit; EMlockall] in
      if negb (mlockall_ok env) then
        (tr ++ EPerror :: die all_open (-1), Exited (-1))
      else
        let tr := tr ++ [EStackPrefault; EPthreadCreate sampling_thread] in
        if negb (sampling_thread_created env) then
          (tr ++ EPerror :: die all_open (-1), Exited (-1))
        else
          let tr := tr ++ [EPthreadCreate logger_thread] in
          if negb (logger_thread_created env) then
            (tr ++ EPerror :: die all_open (-1), Exited (-1))
          else
            let tr := tr ++ [ESignal] in
            if negb (signal_installed env) then
              (tr ++ EPerror :: die all_open (-1), Exited (-1))
            else (tr, Running cfg).

Section Main.

(** [frequency_to_interval (strtod (arg, NULL))]: arithmetic on [double],
    kept as a parameter; nothing in [main] branches on its result. *)
Variable interval_of_frequency_arg : string -> timespec.

Definition configure (f l u : string) (p : option string) : config :=
  mkConfig (to_uint16 (atoi u)) (to_uint16 (atoi l))
    (interval_of_frequency_arg f)
    (match p with Some s => atoi s | None => DEFAULT_TASK_PRIORITY end).

Definition main (opts : list (ascii * string)) (env : environment)
  : list event * outcome :=
  match parse_options no_arguments opts with
  | None => (EUnknownOption :: EUsage :: die nothing_open (-1), Exited (-1))
  | Some a =>
      match sampling_frequency_arg a, logfile_arg a,
            threshold_lower_arg a, threshold_upper_arg a with
      | Some f, Some o, Some l, Some u =>
          bring_up (configure f l u (task_priority_arg a)) o env
      | _, _, _, _ => (EUsage :: die nothing_open (-1), Exited (-1))
      end
  end.

End Main.

(** Bus and relay activity: every call into the bcm2835 library. *)
Definition is_bus_or_relay_activity (e : event) : bool :=
  match e with
  | EGpioFselOutp _ | EGpioClr _ | EGpioSet _ | EGetSample _
  | EBcmInit | ESpiBegin | ESpiChipSelect | ESpiSetClockDivider _
  | ESpiSetDataMode | ESpiSetBitOrder | ESpiSetChipSelectPolarity
  | ESpiEnd | EBcmClose => true
  | _ => false
  end.

(** Leaving with a failure status before any bus or relay activity. *)
Definition failed (o : outcome) : bool :=
  match o with
  | Exited status => negb (status =? 0)
  | Running _ => false
  end.

Definition fails_before_activity (r : list event * outcome) : bool :=
  failed (snd r) && negb (existsb is_bus_or_relay_activity (fst r)).

Definition required_missing (a : arguments) : bool :=
  match sampling_frequency_arg a, logfile_arg a,
        threshold_lower_arg a, threshold_upper_arg a with
  | Some _, Some _, Some _, Some _ => false
  | _, _, _, _ => true
  end.

(** The thresholds [main] would store are not in the order
    [lower < upper]. *)
Definition threshold_order_invalid (a : arguments) : bool :=
  match threshold_lower_arg a, threshold_upper_arg a with
  | Some l, Some u => negb (to_uint16 (atoi l) <? to_uint16 (atoi u))
  | _, _ => false
  end.

(** *** Auxiliary notions for the properties of Part III *)

(** A [timespec] as a number of nanoseconds, and the normal form
    [0 <= tv_nsec < 1000000000]. *)
Definition total_ns (t : timespec) : Z := 1000000000 * tv_sec t + tv_nsec t.

Definition normalised (t : timespec) : Prop :=
  0 <= tv_nsec t < 1000000000.

(** [frequency_to_interval] after the conversion of
    [1000000000.0/frequency + 0.5] to [uint64_t]: [ins] is that integer,
    and the two fields are [ins/1000000000ull] and [ins%1000000000ull]. *)
Definition interval_of_ins (ins : Z) : timespec :=
  mkTimespec (ins / 1000000000) (ins mod 1000000000).

(** The additions [next_sampling_time] performs stay within the 64-bit
    range: the two sums, and the increment of the seconds when it
    carries. *)
Definition additions_fit (tlast interval : timespec) : Prop :=
  fits_int64 (tv_sec tlast + tv_sec interval) /\
  fits_int64 (tv_nsec tlast + tv_nsec interval) /\
  (1000000000 <= tv_nsec tlast + tv_nsec interval ->
   fits_int64 (tv_sec tlast + tv_sec interval + 1)).

(** A clock value as [clock_gettime] stores it: non-negative seconds, a
    normalised nanosecond field, and a number of nanoseconds that fits
    [uint64_t]. *)
Definition clock_value (t : timespec) : Prop :=
  0 <= tv_sec t /\ normalised t /\ total_ns t < 2 ^ 64.

(** The order of two times: by seconds, then by nanoseconds. *)
Definition timespec_le (a b : timespec) : Prop :=
  tv_sec a < tv_sec b \/ (tv_sec a = tv_sec b /\ tv_nsec a <= tv_nsec b).

(** A reading that keeps the loop in state [s]: not [-1], and on the
    staying side of the threshold of that state. *)
Definition quiet (cfg : config) (s : State) (i : reading) : bool :=
  negb (sample_value i =? -1) &&
  match s with
  | charging => sample_value i <? threshold_upper cfg
  | discharging => threshold_lower cfg <? sample_value i
  end.

(** How often a trace closes relay [p]. *)
Fixpoint closings (p : relay_pin) (tr : list event) : Z :=
  match tr with
  | [] => 0
  | EGpioSet charge_pin :: tr' =>
      match p with
      | charge_pin => 1 + closings p tr'
      | discharge_pin => closings p tr'
      end
  | EGpioSet discharge_pin :: tr' =>
      match p with
      | charge_pin => closings p tr'
      | discharge_pin => 1 + closings p tr'
      end
  | _ :: tr' => closings p tr'
  end.

(** The reading of an iteration whose sample comes out of
    [get_sample_singleended (adc_channel)] on the reply [data]. *)
Definition read_adc (x : spi_reply * timespec * timespec) : reading :=
  mkReading (get_sample_singleended adc_channel (fst (fst x)))
    (snd (fst x)) (snd x).

(** The argument an option letter stores. *)
Definition arg_of (c : ascii) (a : arguments) : option string :=
  if (c =? "f")%char then sampling_frequency_arg a
  else if (c =? "o")%char then logfile_arg a
  else if (c =? "l")%char then threshold_lower_arg a
  else if (c =? "u")%char then threshold_upper_arg a
  else if (c =? "p")%char then task_priority_arg a
  else None.

Definition is_option_letter (c : ascii) : bool :=
  ((c =? "f") || (c =? "o") || (c =? "l") || (c =? "u") || (c =? "p"))%char.

Definition all_calls_ok (env : environment) : bool :=
  bcm2835_init_ok env && fopen_ok env && mlockall_ok env &&
  sampling_thread_created env && logger_thread_created env &&
  signal_installed env.

Definition is_gpio_set (e : event) : bool :=
  match e with EGpioSet _ => true | _ => false end.
Definition is_fopen (e : event) : bool :=
  match e with EFopen _ => true | _ => false end.
Definition is_fclose (e : event) : bool :=
  match e with EFclose => true | _ => false end.
Definition is_spi_begin (e : event) : bool :=
  match e with ESpiBegin => true | _ => false end.
Definition is_spi_end (e : event) : bool :=
  match e with ESpiEnd => true | _ => false end.
Definition is_bcm_init (e : event) : bool :=
  match e with EBcmInit => true | _ => false end.
Definition is_bcm_close (e : event) : bool :=
  match e with EBcmClose => true | _ => false end.

Definition is_release (e : event) : bool :=
  is_fclose e || is_spi_end e || is_bcm_close e.

(** What [main] does when every call succeeds, up to [pthread_join]. *)
Definition full_start_up (logfile : string) : list event :=
  EBcmInit :: setup_spi ++ setup_gpio ++
  [EFopen logfile; ERingInit; EMlockall; EStackPrefault;
   EPthreadCreate sampling_thread; EPthreadCreate logger_thread; ESignal].

End Meter.

(** ** The logger: [log_sample] and [logger_thread_loop] *)

Module Logger.
Import Ring.

(** What [fprintf] prints for [%llu] and [%d]: the decimal digits without
    leading zeros, after a minus sign for a negative number.  (The
    arguments have the values of their C types: [uint64_t] for the time
    stamp and the epoch, [int16_t] promoted to [int] for the sample.) *)
Definition decimal (z : Z) : string := NilZero.string_of_int (Z.to_int z).

Definition comma : ascii := ","%char.
Definition newline : ascii := ascii_of_nat 10.

(** The line without its newline: the time stamp, the epoch, the sample. *)
Definition log_line (sample t epoch : Z) : string :=
  decimal t ++ String comma (decimal epoch ++ String comma (decimal sample)).

(** [log_sample]: [fprintf (fout, "%llu,%llu,%d\n", t, epoch, sample)]; the
    result is the text appended to [fout]. *)
Definition log_sample (sample t epoch : Z) : string :=
  log_line sample t epoch ++ String newline EmptyString.

(** [logger_thread_loop] over the entries its calls of [ring_get] return:
    the text it appends to [fout]. *)
Fixpoint logger_thread_loop (entries : list ring_entry) : string :=
  match entries with
  | [] => EmptyString
  | entry :: rest =>
      log_sample (value entry) (timestamp entry) (epoch entry)
        ++ logger_thread_loop rest
  end.

(** Reading a log back: the text is cut at each separator, a line into its
    fields and the file into its lines. *)
Fixpoint fields (sep : ascii) (s : string) : list string :=
  match s with
  | EmptyString => [EmptyString]
  | String c s' =>
      if (c =? sep)%char then EmptyString :: fields sep s'
      else
        match fields sep s' with
        | f :: fs => String c f :: fs
        | [] => [String c EmptyString]
        end
  end.

Definition number (s : string) : option Z :=
  option_map Z.of_int (NilZero.int_of_string s).

Definition parse_line (l : string) : option ring_entry :=
  match fields comma l with
  | [t; e; v] =>
      match number t, number e, number v with
      | Some t', Some e', Some v' => Some (mkEntry t' v' e')
      | _, _, _ => None
      end
  | _ => None
  end.

(** The lines of a log: every line ends with a newline, so the last piece
    is empty. *)
Fixpoint parse_lines (ls : list string) : option (list ring_entry) :=
  match ls with
  | [] => None
  | [l] => if (l =? EmptyString)%string then Some [] else None
  | l :: rest =>
      match parse_line l, parse_lines rest with
      | Some e, Some es => Some (e :: es)
      | _, _ => None
      end
  end.

Definition parse_log (s : string) : option (list ring_entry) :=
  parse_lines (fields newline s).

Fixpoint string_forall (p : ascii -> bool) (s : string) : bool :=
  match s with
  | EmptyString => true
  | String c s' => p c && string_forall p s'
  end.

(** The characters of a printed number. *)
Definition is_number_char (c : ascii) : bool :=
  let n := nat_of_ascii c in
  ((n =? 45) || ((48 <=? n) && (n <=? 57)))%nat.

End Logger.

(** ** A concrete run

    10 Hz sampling with thresholds 100 and 3000, and the readings 3100,
    2000, 50 and a failed one. *)

Module Scenario.
Import Meter.

Definition cfg : config :=
  mkConfig 3000 100 (mkTimespec 0 100000000) DEFAULT_TASK_PRIORITY.

Definition t0 : timespec := mkTimespec 5 0.

Definition at_3100 : reading :=
  mkReading 3100 (mkTimespec 5 100000) (mkTimespec 5 100200000).

Definition at_2000 : reading :=
  mkReading 2000 (mkTimespec 5 100300000) (mkTimespec 5 100400000).

Definition at_50 : reading :=
  mkReading 50 (mkTimespec 5 200300000) (mkTimespec 5 300500000).

Definition failed_reading : reading :=
  mkReading (-1) (mkTimespec 5 100000) (mkTimespec 5 200000).

(** Discharging in epoch 1 with the deadline baseline at 5.1002 s. *)
Definition discharging_1 : locals :=
  mkLocals discharging 1 (mkTimespec 5 100200000).

(** Command lines as [getopt] reports them, and an environment in which
    every call of [main] succeeds. *)
Definition inverted_thresholds : list (ascii * string) :=
  [("f"%char, "10"%string); ("l"%char, "3000"%string);
   ("u"%char, "100"%string); ("o"%char, "log.csv"%string)].

Definition negative_frequency : list (ascii * string) :=
  [("f"%char, "-5"%string); ("l"%char, "100"%string);
   ("u"%char, "3000"%string); ("o"%char, "log.csv"%string)].

Definition no_logfile : list (ascii * string) :=
  [("f"%char, "10"%string); ("l"%char, "100"%string);
   ("u"%char, "3000"%string)].

Definition all_calls_succeed : environment :=
  mkEnvironment true true true true true true.

Definition three_records : list Ring.ring_entry :=
  [Ring.mkEntry 5100300000 2000 1; Ring.mkEntry 5200300000 50 1;
   Ring.mkEntry 7100300000 2000 2].

End Scenario.

(** * Part II: properties *)

Import CInt Mcp320x Ring Meter.

(** ** Integer facts *)

Lemma to_int16_small z : 0 <= z < 32768 -> to_int16 z = z.
Proof.
  intros Hz. unfold to_int16.
  rewrite Z.mod_small by lia.
  destruct (Z.ltb_spec z 32768); lia.
Qed.

Lemma to_uint16_small z : 0 <= z < 65536 -> to_uint16 z = z.
Proof. intros Hz. unfold to_uint16. now rewrite Z.mod_small. Qed.

(** A bit field placed above [k] low bits: [or] is addition there. *)
Lemma lor_shiftl_low hi lo k :
  0 <= k -> 0 <= lo < 2 ^ k ->
  Z.lor (Z.shiftl hi k) lo = hi * 2 ^ k + lo.
Proof.
  intros Hk Hlo.
  assert (Hdisj : Z.land (Z.shiftl hi k) lo = 0).
  { apply Z.bits_inj'. intros n Hn.
    rewrite Z.land_spec, Z.bits_0.
    destruct (Z.lt_ge_cases n k) as [Hlt | Hge].
    - rewrite Z.shiftl_spec_low by assumption. reflexivity.
    - replace lo with (lo mod 2 ^ k) by (apply Z.mod_small; assumption).
      rewrite Z.mod_pow2_bits_high by lia.
      apply andb_false_r. }
  rewrite <- Z.lxor_lor by assumption.
  rewrite <- Z.add_nocarry_lxor by assumption.
  now rewrite Z.shiftl_mul_pow2.
Qed.

Lemma land_1_mod2 z : Z.land z 1 = z mod 2.
Proof. change 1 with (Z.ones 1). rewrite Z.land_ones by lia. reflexivity. Qed.

Lemma top3_bits z : is_uint8 z -> Z.shiftr (Z.land z 0xe0) 5 = z / 32.
Proof.
  intros Hz. unfold is_uint8 in Hz.
  rewrite Z.shiftr_land.
  rewrite !Z.shiftr_div_pow2 by lia.
  change (0xe0 / 2 ^ 5) with (Z.ones 3).
  rewrite Z.land_ones by lia.
  change (2 ^ 5) with 32. change (2 ^ 3) with 8.
  apply Z.mod_small.
  split; [apply Z.div_pos; lia | apply Z.div_lt_upper_bound; lia].
Qed.

(** ** The sample decoding *)

Lemma code12_range data : reply_ok data -> 0 <= code12 data <= 4095.
Proof.
  intros (H0 & H1 & H2). unfold is_uint8 in *. unfold code12.
  assert (Hb : 0 <= rx0 data mod 2 < 2) by (apply Z.mod_pos_bound; lia).
  assert (Ht : 0 <= rx2 data / 32 < 8).
  { split; [apply Z.div_pos; lia | apply Z.div_lt_upper_bound; lia]. }
  lia.
Qed.

Lemma sample_code12 channel_config data :
  reply_ok data -> sample channel_config data = code12 data.
Proof.
  intros (H0 & H1 & H2). unfold is_uint8 in *.
  unfold sample, code12.
  rewrite land_1_mod2, top3_bits by assumption.
  assert (Hb : 0 <= rx0 data mod 2 < 2) by (apply Z.mod_pos_bound; lia).
  assert (Ht : 0 <= rx2 data / 32 < 8).
  { split; [apply Z.div_pos; lia | apply Z.div_lt_upper_bound; lia]. }
  rewrite (to_uint16_small (rx0 data mod 2)) by lia.
  rewrite (to_uint16_small (rx1 data)) by lia.
  rewrite (to_uint16_small (rx2 data / 32)) by lia.
  assert (E11 : Z.shiftl (rx0 data mod 2) 11 = rx0 data mod 2 * 2048)
    by (now rewrite Z.shiftl_mul_pow2 by lia).
  rewrite (to_uint16_small (Z.shiftl (rx0 data mod 2) 11)) by lia.
  replace (Z.lor (Z.shiftl (rx0 data mod 2) 11) (Z.shiftl (rx1 data) 3))
    with (Z.shiftl (Z.lor (Z.shiftl (rx0 data mod 2) 8) (rx1 data)) 3)
    by (now rewrite Z.shiftl_lor, Z.shiftl_shiftl by lia).
  rewrite (lor_shiftl_low (rx0 data mod 2) (rx1 data) 8)
    by (change (2 ^ 8) with 256; lia).
  change (2 ^ 8) with 256.
  assert (E3 : Z.shiftl (rx0 data mod 2 * 256 + rx1 data) 3
               = (rx0 data mod 2 * 256 + rx1 data) * 8)
    by (now rewrite Z.shiftl_mul_pow2 by lia).
  rewrite (to_uint16_small (Z.shiftl _ 3)) by lia.
  rewrite lor_shiftl_low by (change (2 ^ 3) with 8; lia).
  change (2 ^ 3) with 8.
  rewrite to_uint16_small by lia.
  rewrite to_int16_small by lia.
  lia.
Qed.

Lemma valid_channel_number c :
  valid_channel c -> exists n, channel_number c = Some n /\ 0 <= n <= 7.
Proof.
  unfold valid_channel.
  destruct c; intros Hc; try congruence; cbn; eexists; (split; [reflexivity | lia]).
Qed.

(** C10. For each of [CH0] .. [CH7] and whatever three bytes the transfer
    returned, [get_sample_singleended] is the 12-bit code made of bit 0 of
    the first byte, the eight bits of the second and the top three bits of
    the third; it lies in [0, 4095] and is never [-1].  Hence the loop body,
    which reads [adc_channel = CH0], never takes its [sample == -1] branch:
    no error report appears in its trace. *)
Theorem get_sample_singleended_is_12_bit c data :
  valid_channel c -> reply_ok data ->
  get_sample_singleended c data = code12 data /\
  0 <= get_sample_singleended c data <= 4095 /\
  get_sample_singleended c data <> -1 /\
  valid_channel adc_channel /\
  forall cfg st t1 t2,
    ~ In ESampleError
        (snd (loop_body cfg st
                (mkReading (get_sample_singleended adc_channel data) t1 t2))).
Proof.
  intros Hc Hd.
  assert (Hall : forall c', valid_channel c' ->
            get_sample_singleended c' data = code12 data).
  { intros c' Hc'. destruct (valid_channel_number c' Hc') as (n & Hn & _).
    unfold get_sample_singleended. rewrite Hn.
    now apply sample_code12. }
  pose proof (code12_range data Hd) as Hr.
  assert (H0 : valid_channel adc_channel) by (unfold valid_channel, adc_channel; congruence).
  rewrite (Hall c Hc).
  repeat split; try lia; try assumption.
  intros cfg st t1 t2.
  unfold loop_body; cbn [sample_value].
  rewrite (Hall adc_channel H0).
  destruct (Z.eqb_spec (code12 data) (-1)) as [E | _]; [lia |].
  destruct (state st).
  - destruct (code12 data >=? threshold_upper cfg); cbn; intuition congruence.
  - destruct (code12 data <=? threshold_lower cfg); cbn; intuition congruence.
Qed.

Lemma get_sample_singleended_is_12_bit_witness :
  get_sample_singleended CH3 (mkReply 0xff 0xab 0xe0) = 3423 /\
  0 <= get_sample_singleended CH3 (mkReply 0xff 0xab 0xe0) <= 4095.
Proof.
  assert (Hc : valid_channel CH3) by (unfold valid_channel; congruence).
  assert (Hd : reply_ok (mkReply 0xff 0xab 0xe0))
    by (unfold reply_ok, is_uint8; cbn; lia).
  destruct (get_sample_singleended_is_12_bit CH3 _ Hc Hd) as (He & Hr & _).
  split; [reflexivity | exact Hr].
Defined.

(** ** The sampling loop: unfolding lemmas *)

Lemma loop_cons cfg st i rest :
  loop cfg st (i :: rest) =
  (fst (loop cfg (fst (loop_body cfg st i)) rest),
   snd (loop_body cfg st i) ++ snd (loop cfg (fst (loop_body cfg st i)) rest)).
Proof.
  cbn [loop].
  destruct (loop_body cfg st i) as [st1 ev]. cbn [fst snd].
  destruct (loop cfg st1 rest) as [st2 evs].
  reflexivity.
Qed.

(** The five branches of the loop body, as equations. *)
Lemma loop_body_error cfg st i :
  sample_value i = -1 ->
  loop_body cfg st i =
  (st, [EGetSample adc_channel; EClockGettime; ESampleError]).
Proof. intros E. unfold loop_body. rewrite E. reflexivity. Qed.

Lemma loop_body_charged cfg st i :
  sample_value i <> -1 -> state st = charging ->
  threshold_upper cfg <= sample_value i ->
  loop_body cfg st i =
  (mkLocals discharging (to_uint64 (epoch st + 1)) (tclock i),
   [EGetSample adc_channel; EClockGettime]
     ++ switch_relays charge_pin discharge_pin ++ [EClockGettime]).
Proof.
  intros Hne Hs Hge. unfold loop_body. rewrite Hs.
  destruct (Z.eqb_spec (sample_value i) (-1)); [contradiction |].
  destruct (Z.geb_spec (sample_value i) (threshold_upper cfg)); [| lia].
  reflexivity.
Qed.

Lemma loop_body_charging cfg st i :
  sample_value i <> -1 -> state st = charging ->
  sample_value i < threshold_upper cfg ->
  loop_body cfg st i =
  (mkLocals charging (epoch st)
     (next_sampling_time (tsample st) (sampling_interval cfg)),
   [EGetSample adc_channel; EClockGettime;
    ENanosleepAbs (next_sampling_time (tsample st) (sampling_interval cfg))]).
Proof.
  intros Hne Hs Hlt. unfold loop_body. rewrite Hs.
  destruct (Z.eqb_spec (sample_value i) (-1)); [contradiction |].
  destruct (Z.geb_spec (sample_value i) (threshold_upper cfg)); [lia |].
  reflexivity.
Qed.

Lemma loop_body_discharged cfg st i :
  sample_value i <> -1 -> state st = discharging ->
  sample_value i <= threshold_lower cfg ->
  loop_body cfg st i =
  (mkLocals charging (epoch st) (tsample st),
   [EGetSample adc_channel; EClockGettime; ERingPut (entry_of (st, i))]
     ++ switch_relays discharge_pin charge_pin).
Proof.
  intros Hne Hs Hle. unfold loop_body. rewrite Hs.
  destruct (Z.eqb_spec (sample_value i) (-1)); [contradiction |].
  destruct (Z.leb_spec (sample_value i) (threshold_lower cfg)); [| lia].
  reflexivity.
Qed.

Lemma loop_body_discharging cfg st i :
  sample_value i <> -1 -> state st = discharging ->
  threshold_lower cfg < sample_value i ->
  loop_body cfg st i =
  (mkLocals discharging (epoch st)
     (next_sampling_time (tsample st) (sampling_interval cfg)),
   [EGetSample adc_channel; EClockGettime; ERingPut (entry_of (st, i));
    ENanosleepAbs (next_sampling_time (tsample st) (sampling_interval cfg))]).
Proof.
  intros Hne Hs Hgt. unfold loop_body. rewrite Hs.
  destruct (Z.eqb_spec (sample_value i) (-1)); [contradiction |].
  destruct (Z.leb_spec (sample_value i) (threshold_lower cfg)); [lia |].
  reflexivity.
Qed.

Lemma branch_total cfg st i : branch cfg st i.
Proof.
  destruct (Z.eq_dec (sample_value i) (-1)) as [E | N].
  - now apply BError.
  - destruct (state st) eqn:Hs.
    + destruct (Z.lt_ge_cases (sample_value i) (threshold_upper cfg)).
      * now apply BCharging.
      * now apply BCharged.
    + destruct (Z.lt_ge_cases (threshold_lower cfg) (sample_value i)).
      * now apply BDischarging.
      * now apply BDischarged.
Qed.

(** Splits on the branch of [loop_body cfg st i] and rewrites it with the
    matching equation. *)
Ltac by_branch cfg st i :=
  destruct (branch_total cfg st i) as
    [E | N Hs Hc | N Hs Hc | N Hs Hc | N Hs Hc];
  [ rewrite (loop_body_error cfg st i E)
  | rewrite (loop_body_charged cfg st i N Hs Hc)
  | rewrite (loop_body_charging cfg st i N Hs Hc)
  | rewrite (loop_body_discharged cfg st i N Hs Hc)
  | rewrite (loop_body_discharging cfg st i N Hs Hc) ].

(** ** Relay safety *)

Section RelaySafety.

Lemma safe_nil r :
  at_most_one_closed r = true -> always_at_most_one_closed r [].
Proof. intros H n. now destruct n. Qed.

Lemma safe_cons r e tr :
  at_most_one_closed r = true ->
  always_at_most_one_closed (command r e) tr ->
  always_at_most_one_closed r (e :: tr).
Proof.
  intros Hr Htr [| n]; cbn [firstn].
  - exact Hr.
  - exact (Htr n).
Qed.

Lemma bbm_nil : break_before_make [].
Proof. intros [| x pre] p post H; discriminate H. Qed.

Lemma bbm_cons e tr :
  (forall p, e <> EGpioSet p) ->
  break_before_make tr -> break_before_make (e :: tr).
Proof.
  intros He Htr [| x pre] p post H; cbn in H; injection H as -> H.
  - now elim (He p).
  - destruct (Htr pre p post H) as [pre' ->].
    now exists (x :: pre').
Qed.

Lemma bbm_switch p tr :
  break_before_make tr ->
  break_before_make (switch_relays (other_pin p) p ++ tr).
Proof.
  intros Htr pre q post H. cbn in H.
  destruct pre as [| x [| y [| z pre]]]; cbn in H.
  - discriminate H.
  - discriminate H.
  - injection H as <- <- <- _. now exists [].
  - injection H as <- <- <- H.
    destruct (Htr pre q post H) as [pre' ->].
    now exists (EGpioClr (other_pin p) :: ENanosleepRel twait
                  :: EGpioSet p :: pre').
Qed.

Variable cfg : config.

Lemma loop_safe inputs :
  forall st,
    always_at_most_one_closed (relays_of (state st))
      (snd (loop cfg st inputs)).
Proof.
  induction inputs as [| i rest IH]; intros st.
  - apply safe_nil. now destruct (state st).
  - rewrite loop_cons; cbn [snd].
    specialize (IH (fst (loop_body cfg st i))). revert IH.
    by_branch cfg st i; cbn [fst snd state app switch_relays];
      try rewrite Hs; intros IH;
      repeat (apply safe_cons; [reflexivity |]); try exact IH.
    destruct (state st); repeat (apply safe_cons; [reflexivity |]); exact IH.
Qed.

Lemma loop_bbm inputs :
  forall st, break_before_make (snd (loop cfg st inputs)).
Proof.
  induction inputs as [| i rest IH]; intros st.
  - apply bbm_nil.
  - rewrite loop_cons; cbn [snd].
    specialize (IH (fst (loop_body cfg st i))). revert IH.
    by_branch cfg st i; cbn [fst snd]; intros IH.
    + repeat (apply bbm_cons; [discriminate |]). exact IH.
    + rewrite <- !app_assoc. cbn [app].
      do 2 (apply bbm_cons; [discriminate |]).
      apply (bbm_switch discharge_pin).
      apply bbm_cons; [discriminate | exact IH].
    + repeat (apply bbm_cons; [discriminate |]). exact IH.
    + rewrite <- !app_assoc. cbn [app].
      do 3 (apply bbm_cons; [discriminate |]).
      apply (bbm_switch charge_pin). exact IH.
    + repeat (apply bbm_cons; [discriminate |]). exact IH.
Qed.

Lemma relays_after_app r a b :
  relays_after r (a ++ b) = relays_after (relays_after r a) b.
Proof. unfold relays_after. apply fold_left_app. Qed.

Lemma loop_body_relays st i :
  relays_after (relays_of (state st)) (snd (loop_body cfg st i))
  = relays_of (state (fst (loop_body cfg st i))).
Proof.
  by_branch cfg st i; cbn [fst snd state]; rewrite ?Hs; reflexivity.
Qed.

Lemma loop_relays inputs :
  forall st,
    relays_after (relays_of (state st)) (snd (loop cfg st inputs))
    = relays_of (state (fst (loop cfg st inputs))).
Proof.
  induction inputs as [| i rest IH]; intros st; [reflexivity |].
  rewrite loop_cons; cbn [fst snd].
  now rewrite relays_after_app, loop_body_relays, IH.
Qed.

Lemma setup_gpio_opens_both r0 :
  relays_after r0 setup_gpio = mkRelays false false.
Proof. reflexivity. Qed.

Lemma thread_safe sched_ok t0 inputs :
  always_at_most_one_closed (mkRelays false false)
    (sampling_thread_loop cfg sched_ok t0 inputs).
Proof.
  unfold sampling_thread_loop. destruct sched_ok.
  - cbn [thread_prologue switch_relays app].
    repeat (apply safe_cons; [reflexivity |]).
    apply (loop_safe inputs (initial_locals t0)).
  - cbn. repeat (apply safe_cons; [reflexivity |]). now apply safe_nil.
Qed.

Lemma thread_bbm sched_ok t0 inputs :
  break_before_make (sampling_thread_loop cfg sched_ok t0 inputs).
Proof.
  unfold sampling_thread_loop. destruct sched_ok.
  - apply bbm_cons; [discriminate |].
    unfold thread_prologue. rewrite <- app_assoc.
    apply (bbm_switch charge_pin). cbn [app].
    apply bbm_cons; [discriminate |]. apply loop_bbm.
  - cbn. repeat (apply bbm_cons; [discriminate |]). apply bbm_nil.
Qed.

End RelaySafety.

(** C1. Started on the pins as [setup_gpio] left them, the sampling thread
    never has both relays commanded closed, whatever point of its trace is
    looked at.  Every closing of a relay comes right after a relative sleep
    of 100 ms, which comes right after the opening of the other relay, so
    nothing, no sample either, lies between the opening and the closing.
    The thread begins by opening the discharge relay, sleeping 100 ms and
    closing the charge relay; every iteration that changes the state opens
    the relay of the old state, sleeps 100 ms and closes the relay of the
    new state, with no other relay command in that iteration; and at the
    end of every run the relay of the current state is the one commanded
    closed. *)
Theorem relays_break_before_make cfg sched_ok t0 inputs r0 :
  let tr := sampling_thread_loop cfg sched_ok t0 inputs in
  (forall pre post,
      tr = pre ++ post ->
      at_most_one_closed (relays_after r0 (setup_gpio ++ pre)) = true) /\
  (forall pre p post,
      tr = pre ++ EGpioSet p :: post ->
      exists pre',
        pre = pre' ++ [EGpioClr (other_pin p);
                       ENanosleepRel (mkTimespec 0 100000000)]) /\
  (sched_ok = true ->
   (exists rest,
       tr = ESchedSetscheduler (task_priority cfg)
              :: EGpioClr discharge_pin
              :: ENanosleepRel (mkTimespec 0 100000000)
              :: EGpioSet charge_pin :: rest) /\
   relays_after r0 (setup_gpio ++ tr)
   = match state (fst (loop cfg (initial_locals t0) inputs)) with
     | charging => mkRelays true false
     | discharging => mkRelays false true
     end) /\
  (forall st i,
      state (fst (loop_body cfg st i)) <> state st ->
      exists before after,
        snd (loop_body cfg st i) =
        before
          ++ [EGpioClr (relay_of (state st));
              ENanosleepRel (mkTimespec 0 100000000);
              EGpioSet (relay_of (state (fst (loop_body cfg st i))))]
          ++ after /\
        existsb is_relay_command (before ++ after) = false).
Proof.
  intros tr. split; [| split; [| split]].
  - intros pre post E.
    unfold relays_after. rewrite fold_left_app.
    fold (relays_after r0 setup_gpio). rewrite setup_gpio_opens_both.
    pose proof (thread_safe cfg sched_ok t0 inputs (List.length pre)) as H.
    fold tr in H. rewrite E in H.
    rewrite firstn_app, firstn_all, Nat.sub_diag in H.
    cbn [firstn] in H. rewrite app_nil_r in H. exact H.
  - apply (thread_bbm cfg sched_ok t0 inputs).
  - intros ->. split.
    + unfold tr, sampling_thread_loop, thread_prologue.
      eexists. reflexivity.
    + rewrite relays_after_app, setup_gpio_opens_both.
      unfold tr, sampling_thread_loop.
      change (ESchedSetscheduler (task_priority cfg)
                :: thread_prologue
                     ++ snd (loop cfg (initial_locals t0) inputs))
        with ((ESchedSetscheduler (task_priority cfg) :: thread_prologue)
                ++ snd (loop cfg (initial_locals t0) inputs)).
      rewrite relays_after_app.
      change (relays_after (mkRelays false false)
                (ESchedSetscheduler (task_priority cfg) :: thread_prologue))
        with (relays_of (state (initial_locals t0))).
      rewrite loop_relays.
      now destruct (state (fst (loop cfg (initial_locals t0) inputs))).
  - intros st i. by_branch cfg st i; cbn [fst snd state]; rewrite ?Hs;
      intros Hchg; try congruence.
    + exists [EGetSample adc_channel; EClockGettime], [EClockGettime].
      split; reflexivity.
    + exists [EGetSample adc_channel; EClockGettime;
              ERingPut (entry_of (st, i))], [].
      split; reflexivity.
Qed.

Lemma relays_break_before_make_witness :
  at_most_one_closed
    (relays_after (mkRelays true true)
       (setup_gpio ++
        [ESchedSetscheduler 49; EGpioClr discharge_pin;
         ENanosleepRel (mkTimespec 0 100000000); EGpioSet charge_pin]))
  = true /\
  (exists pre',
      [ESchedSetscheduler 49; EGpioClr discharge_pin;
       ENanosleepRel (mkTimespec 0 100000000); EGpioSet charge_pin;
       EClockGettime; EGetSample adc_channel; EClockGettime;
       EGpioClr charge_pin; ENanosleepRel (mkTimespec 0 100000000)]
      = pre' ++ [EGpioClr (other_pin discharge_pin);
                 ENanosleepRel (mkTimespec 0 100000000)]) /\
  relays_after (mkRelays true true)
    (setup_gpio
       ++ sampling_thread_loop Scenario.cfg true Scenario.t0
            [Scenario.at_3100])
  = mkRelays false true.
Proof.
  destruct (relays_break_before_make Scenario.cfg true Scenario.t0
              [Scenario.at_3100] (mkRelays true true))
    as (Hsafe & Hbbm & Hstart & _).
  split; [| split].
  - apply (Hsafe
             [ESchedSetscheduler 49; EGpioClr discharge_pin;
              ENanosleepRel (mkTimespec 0 100000000); EGpioSet charge_pin]
             (skipn 4 (sampling_thread_loop Scenario.cfg true Scenario.t0
                         [Scenario.at_3100]))).
    reflexivity.
  - apply (Hbbm
             [ESchedSetscheduler 49; EGpioClr discharge_pin;
              ENanosleepRel (mkTimespec 0 100000000); EGpioSet charge_pin;
              EClockGettime; EGetSample adc_channel; EClockGettime;
              EGpioClr charge_pin; ENanosleepRel (mkTimespec 0 100000000)]
             discharge_pin [EClockGettime]).
    reflexivity.
  - destruct (Hstart eq_refl) as [_ H]. exact H.
Defined.

(** ** What reaches the channel *)

Lemma puts_app a b : puts (a ++ b) = puts a ++ puts b.
Proof.
  induction a as [| e a IH]; [reflexivity |].
  destruct e; cbn; now rewrite ?IH.
Qed.

Lemma recorded_iff st i :
  recorded (st, i) = true <-> state st = discharging /\ sample_value i <> -1.
Proof.
  unfold recorded; cbn [fst snd].
  rewrite andb_true_iff, negb_true_iff, Z.eqb_neq.
  destruct (state st); cbn; intuition congruence.
Qed.

Lemma puts_loop_body cfg st i :
  puts (snd (loop_body cfg st i)) =
  if recorded (st, i) then [entry_of (st, i)] else [].
Proof.
  destruct (recorded (st, i)) eqn:R.
  - apply recorded_iff in R as [Hd Hn].
    by_branch cfg st i; try congruence; reflexivity.
  - by_branch cfg st i; try reflexivity;
      assert (recorded (st, i) = true) by (now apply recorded_iff);
      congruence.
Qed.

Lemma puts_loop cfg inputs :
  forall st,
    puts (snd (loop cfg st inputs)) =
    map entry_of (filter recorded (processed cfg st inputs)).
Proof.
  induction inputs as [| i rest IH]; intros st; [reflexivity |].
  rewrite loop_cons; cbn [snd processed filter].
  rewrite puts_app, puts_loop_body, IH.
  now destruct (recorded (st, i)).
Qed.

(** C2. The records a run pushes to the channel are, in order, one for each
    reading other than [-1] that was processed in the discharging state, and
    nothing else: none for a reading processed while charging.  Within an
    iteration the push comes right after the sample and its time stamp,
    before anything that depends on the lower threshold, so a reading at or
    below the lower threshold is pushed and then the relays are switched. *)
Theorem discharging_readings_pushed_once cfg st inputs t0 :
  puts (snd (loop cfg st inputs)) =
    map entry_of (filter recorded (processed cfg st inputs)) /\
  puts (sampling_thread_loop cfg true t0 inputs) =
    map entry_of
      (filter recorded (processed cfg (initial_locals t0) inputs)) /\
  (forall i,
      state st = discharging -> sample_value i <> -1 ->
      exists rest,
        snd (loop_body cfg st i) =
          [EGetSample adc_channel; EClockGettime;
           ERingPut (entry_of (st, i))] ++ rest /\
        puts rest = [] /\
        (sample_value i <= threshold_lower cfg ->
         rest = switch_relays discharge_pin charge_pin /\
         state (fst (loop_body cfg st i)) = charging)) /\
  (forall i,
      state st = charging -> puts (snd (loop_body cfg st i)) = []).
Proof.
  split; [| split; [| split]].
  - apply puts_loop.
  - unfold sampling_thread_loop. cbn [puts thread_prologue switch_relays app].
    apply puts_loop.
  - intros i Hd Hn.
    destruct (Z.le_gt_cases (sample_value i) (threshold_lower cfg)) as [L | G].
    + rewrite (loop_body_discharged cfg st i Hn Hd L).
      eexists. split; [reflexivity |]. split; [reflexivity |].
      intros _. split; reflexivity.
    + rewrite (loop_body_discharging cfg st i Hn Hd) by lia.
      eexists. split; [reflexivity |]. split; [reflexivity |].
      intros; lia.
  - intros i Hc. rewrite puts_loop_body.
    destruct (recorded (st, i)) eqn:R; [| reflexivity].
    apply recorded_iff in R as [Hd _]. congruence.
Qed.

Lemma discharging_readings_pushed_once_witness :
  exists rest,
    snd (loop_body Scenario.cfg Scenario.discharging_1 Scenario.at_50) =
      [EGetSample adc_channel; EClockGettime;
       ERingPut (entry_of (Scenario.discharging_1, Scenario.at_50))]
        ++ rest /\
    puts rest = [].
Proof.
  destruct (discharging_readings_pushed_once Scenario.cfg
              Scenario.discharging_1 [] Scenario.t0) as (_ & _ & H & _).
  destruct (H Scenario.at_50) as (rest & E & P & _).
  - reflexivity.
  - cbn. lia.
  - exists rest. split; assumption.
Defined.

(** C3, as the code has it. While discharging, a reading other than [-1]
    that is at or below the lower threshold is first pushed to the channel,
    once; then the discharge relay is opened, the settle delay is waited and
    the charge relay is closed, and the state is charging. *)
Theorem lower_threshold_reading_pushed_then_charging cfg st i :
  state st = discharging ->
  sample_value i <> -1 ->
  sample_value i <= threshold_lower cfg ->
  loop_body cfg st i =
    (mkLocals charging (epoch st) (tsample st),
     [EGetSample adc_channel; EClockGettime;
      ERingPut (mkEntry (to_nanosec (tnow i)) (sample_value i) (epoch st));
      EGpioClr discharge_pin; ENanosleepRel twait; EGpioSet charge_pin]) /\
  puts (snd (loop_body cfg st i)) =
    [mkEntry (to_nanosec (tnow i)) (sample_value i) (epoch st)].
Proof.
  intros Hd Hn Hle.
  rewrite (loop_body_discharged cfg st i Hn Hd Hle).
  split; reflexivity.
Qed.

Lemma lower_threshold_reading_pushed_then_charging_witness :
  puts (snd (loop_body Scenario.cfg Scenario.discharging_1 Scenario.at_50)) =
    [mkEntry 5200300000 50 1].
Proof.
  destruct (lower_threshold_reading_pushed_then_charging Scenario.cfg
              Scenario.discharging_1 Scenario.at_50) as [_ H].
  - reflexivity.
  - cbn. lia.
  - cbn. lia.
  - exact H.
Defined.

(** C3 as stated fails on the scenario of the specification: after 3100
    while charging and 2000 while discharging, the reading 50 switches back
    to charging and its record is in the channel, after the one of 2000. *)
Lemma reading_50_is_recorded :
  let r := loop Scenario.cfg (initial_locals Scenario.t0)
             [Scenario.at_3100; Scenario.at_2000; Scenario.at_50] in
  state (fst r) = charging /\
  puts (snd r) = [mkEntry 5100300000 2000 1; mkEntry 5200300000 50 1] /\
  puts (snd (loop_body Scenario.cfg Scenario.discharging_1 Scenario.at_50))
    <> [].
Proof. cbn. repeat split. discriminate. Qed.

(** ** Failed readings *)

Lemma puts_never_failed cfg inputs st :
  Forall (fun e => value e <> -1) (puts (snd (loop cfg st inputs))).
Proof.
  rewrite puts_loop. apply Forall_forall. intros e He.
  apply in_map_iff in He as ([s i] & <- & Hin).
  apply filter_In in Hin as [_ R].
  apply recorded_iff in R as [_ Hn]. exact Hn.
Qed.

(** C5. An iteration that reads [-1] only reports the error: it pushes no
    record, commands no relay, and leaves state, epoch and deadline baseline
    as they were; the loop goes on with the next iteration from the same
    locals.  No record of any run carries the value [-1]. *)
Theorem failed_reading_changes_nothing cfg st i rest :
  sample_value i = -1 ->
  loop_body cfg st i =
    (st, [EGetSample adc_channel; EClockGettime; ESampleError]) /\
  state (fst (loop_body cfg st i)) = state st /\
  epoch (fst (loop_body cfg st i)) = epoch st /\
  puts (snd (loop_body cfg st i)) = [] /\
  existsb is_relay_command (snd (loop_body cfg st i)) = false /\
  loop cfg st (i :: rest) =
    (fst (loop cfg st rest),
     [EGetSample adc_channel; EClockGettime; ESampleError]
       ++ snd (loop cfg st rest)) /\
  Forall (fun e => value e <> -1)
    (puts (snd (loop cfg st (i :: rest)))).
Proof.
  intros E.
  pose proof (loop_body_error cfg st i E) as Hb.
  pose proof (puts_never_failed cfg (i :: rest) st) as Hf.
  rewrite loop_cons in *. rewrite Hb in *. cbn [fst snd] in *.
  repeat split; try reflexivity. exact Hf.
Qed.

Lemma failed_reading_changes_nothing_witness :
  loop_body Scenario.cfg Scenario.discharging_1 Scenario.failed_reading =
    (Scenario.discharging_1,
     [EGetSample adc_channel; EClockGettime; ESampleError]).
Proof.
  apply (failed_reading_changes_nothing Scenario.cfg Scenario.discharging_1
           Scenario.failed_reading []).
  reflexivity.
Defined.

(** ** The deadline baseline at the transitions *)

(** C7, as the code has it. When charging ends, the relays are switched and
    then the clock is read into the deadline baseline.  When discharging
    ends, the relays are switched and nothing follows: the clock is not read
    and the baseline stays what it was. *)
Theorem baseline_reset_only_when_discharging_begins cfg st i :
  (charging_completes cfg st i = true ->
   state (fst (loop_body cfg st i)) = discharging /\
   tsample (fst (loop_body cfg st i)) = tclock i /\
   snd (loop_body cfg st i) =
     [EGetSample adc_channel; EClockGettime; EGpioClr charge_pin;
      ENanosleepRel twait; EGpioSet discharge_pin; EClockGettime]) /\
  (state st = discharging -> sample_value i <> -1 ->
   sample_value i <= threshold_lower cfg ->
   state (fst (loop_body cfg st i)) = charging /\
   tsample (fst (loop_body cfg st i)) = tsample st /\
   snd (loop_body cfg st i) =
     [EGetSample adc_channel; EClockGettime; ERingPut (entry_of (st, i));
      EGpioClr discharge_pin; ENanosleepRel twait; EGpioSet charge_pin]).
Proof.
  split.
  - unfold charging_completes.
    rewrite !andb_true_iff, !negb_true_iff, Z.eqb_neq, Z.geb_le.
    intros [[Hn Hc] Hge].
    assert (Hs : state st = charging) by (now destruct (state st)).
    rewrite (loop_body_charged cfg st i Hn Hs Hge).
    repeat split.
  - intros Hd Hn Hle.
    rewrite (loop_body_discharged cfg st i Hn Hd Hle).
    repeat split.
Qed.

Lemma baseline_reset_only_when_discharging_begins_witness :
  tsample (fst (loop_body Scenario.cfg (initial_locals Scenario.t0)
                  Scenario.at_3100)) = mkTimespec 5 100200000 /\
  tsample (fst (loop_body Scenario.cfg Scenario.discharging_1
                  Scenario.at_50)) = mkTimespec 5 100200000.
Proof.
  split.
  - apply (baseline_reset_only_when_discharging_begins Scenario.cfg
             (initial_locals Scenario.t0) Scenario.at_3100).
    reflexivity.
  - apply (baseline_reset_only_when_discharging_begins Scenario.cfg
             Scenario.discharging_1 Scenario.at_50).
    + reflexivity.
    + cbn. lia.
    + cbn. lia.
Defined.

(** C7 as stated fails for the switch back to charging: the reading 50,
    taken at 5.2003 s while discharging, switches the relays, and the
    baseline afterwards is still 5.1002 s, neither the time stamp of the
    sample nor any later clock value; the iteration ends with the closing of
    the charge relay, without a call of [clock_gettime]. *)
Lemma baseline_stale_after_discharging :
  let r := loop_body Scenario.cfg Scenario.discharging_1 Scenario.at_50 in
  state (fst r) = charging /\
  tsample (fst r) = mkTimespec 5 100200000 /\
  tsample (fst r) <> tnow Scenario.at_50 /\
  tsample (fst r) <> tclock Scenario.at_50 /\
  skipn 3 (snd r) =
    [EGpioClr discharge_pin; ENanosleepRel twait; EGpioSet charge_pin].
Proof. cbn. repeat split; discriminate. Qed.

(** ** The epoch counter *)

Section Epoch.

Variable cfg : config.

Lemma epoch_step st i :
  epoch (fst (loop_body cfg st i)) =
  if charging_completes cfg st i then to_uint64 (epoch st + 1) else epoch st.
Proof.
  unfold charging_completes.
  by_branch cfg st i; cbn [fst epoch]; rewrite ?Hs, ?E; cbn [is_discharging];
    try reflexivity.
  - destruct (Z.eqb_spec (sample_value i) (-1)); [contradiction |].
    destruct (Z.geb_spec (sample_value i) (threshold_upper cfg)); [| lia].
    reflexivity.
  - destruct (Z.eqb_spec (sample_value i) (-1)); [contradiction |].
    destruct (Z.geb_spec (sample_value i) (threshold_upper cfg)); [lia |].
    reflexivity.
  - now rewrite !andb_false_r.
  - now rewrite !andb_false_r.
Qed.

Lemma to_uint64_succ e :
  0 <= e -> e + 1 < 2 ^ 64 -> to_uint64 (e + 1) = e + 1.
Proof. intros H0 H1. unfold to_uint64. apply Z.mod_small. lia. Qed.

Lemma epoch_step_bounds st i :
  0 <= epoch st -> epoch st + 1 < 2 ^ 64 ->
  epoch st <= epoch (fst (loop_body cfg st i)) <= epoch st + 1.
Proof.
  intros H0 H1. rewrite epoch_step.
  destruct (charging_completes cfg st i).
  - rewrite to_uint64_succ by assumption. lia.
  - lia.
Qed.

Lemma processed_epochs inputs :
  forall st,
    0 <= epoch st ->
    epoch st + Z.of_nat (List.length inputs) < 2 ^ 64 ->
    Forall (fun p => 0 <= epoch (fst p) /\ epoch (fst p) + 1 < 2 ^ 64)
      (processed cfg st inputs).
Proof.
  induction inputs as [| i rest IH]; intros st H0 Hlen; cbn [processed].
  - constructor.
  - cbn [List.length] in Hlen. rewrite Nat2Z.inj_succ in Hlen.
    constructor; [cbn [fst]; lia |].
    pose proof (epoch_step_bounds st i H0 ltac:(lia)).
    apply IH; lia.
Qed.

Lemma loop_epochs inputs :
  forall st,
    0 <= epoch st ->
    epoch st + Z.of_nat (List.length inputs) < 2 ^ 64 ->
    Forall (fun e => epoch st <= Ring.epoch e)
      (puts (snd (loop cfg st inputs))) /\
    StronglySorted Z.le (map Ring.epoch (puts (snd (loop cfg st inputs)))).
Proof.
  induction inputs as [| i rest IH]; intros st H0 Hlen.
  - cbn. split; constructor.
  - cbn [List.length] in Hlen. rewrite Nat2Z.inj_succ in Hlen.
    pose proof (epoch_step_bounds st i H0 ltac:(lia)) as Hb.
    destruct (IH (fst (loop_body cfg st i))) as [Hall Hsorted]; [lia .. |].
    assert (Hall' : Forall (fun e => epoch st <= Ring.epoch e)
              (puts (snd (loop cfg (fst (loop_body cfg st i)) rest)))).
    { revert Hall. apply Forall_impl. intros e He. lia. }
    rewrite loop_cons; cbn [snd].
    rewrite puts_app, puts_loop_body.
    destruct (recorded (st, i)); cbn [app map].
    + split.
      * constructor; [cbn; lia | exact Hall'].
      * constructor; [exact Hsorted |].
        apply Forall_map. exact Hall'.
    + split; assumption.
Qed.

End Epoch.

(** C4. The counter is 0 when the loop is entered.  An iteration adds one
    to it (in [uint64_t]) exactly when it reads a value other than [-1],
    while charging, that is at or above the upper threshold, and leaves it
    alone otherwise; that iteration switches to discharging itself, without
    a record and without sleeping a period, also when the value equals the
    threshold.  In a run of fewer than 2^64 iterations the addition never
    wraps, so each such iteration adds exactly one, and the epochs of the
    records pushed to the channel never decrease from one record to the
    next. *)
Theorem epoch_counts_completed_charges cfg t0 inputs :
  epoch (initial_locals t0) = 0 /\
  (forall st i,
      epoch (fst (loop_body cfg st i)) =
      if charging_completes cfg st i
      then to_uint64 (epoch st + 1) else epoch st) /\
  (forall st i,
      charging_completes cfg st i = true ->
      state (fst (loop_body cfg st i)) = discharging /\
      puts (snd (loop_body cfg st i)) = [] /\
      existsb is_sleep_abs (snd (loop_body cfg st i)) = false) /\
  (forall st i,
      state st = charging -> sample_value i <> -1 ->
      sample_value i = threshold_upper cfg ->
      charging_completes cfg st i = true) /\
  (Z.of_nat (List.length inputs) < 2 ^ 64 ->
   (forall st i,
       In (st, i) (processed cfg (initial_locals t0) inputs) ->
       epoch (fst (loop_body cfg st i)) =
       if charging_completes cfg st i then epoch st + 1 else epoch st) /\
   Sorted Z.le
     (map Ring.epoch (puts (sampling_thread_loop cfg true t0 inputs)))).
Proof.
  split; [reflexivity |].
  split; [apply epoch_step |].
  split; [| split].
  - intros st i. unfold charging_completes.
    rewrite !andb_true_iff, !negb_true_iff, Z.eqb_neq, Z.geb_le.
    intros [[Hn Hc] Hge].
    assert (Hs : state st = charging) by (now destruct (state st)).
    rewrite (loop_body_charged cfg st i Hn Hs Hge).
    repeat split.
  - intros st i Hs Hn He. unfold charging_completes.
    rewrite Hs, He. cbn [is_discharging negb].
    rewrite !andb_true_iff, negb_true_iff, Z.eqb_neq, Z.geb_le.
    rewrite <- He. repeat split; [assumption | lia].
  - intros Hlen. split.
    + intros st i Hin.
      pose proof (processed_epochs cfg inputs (initial_locals t0)) as Hp.
      rewrite Forall_forall in Hp.
      destruct (Hp ltac:(cbn; lia) ltac:(cbn [initial_locals epoch]; lia)
                  _ Hin) as [H0 H1].
      cbn [fst] in H0, H1.
      rewrite epoch_step.
      destruct (charging_completes cfg st i); [| reflexivity].
      now apply to_uint64_succ.
    + apply StronglySorted_Sorted.
      unfold sampling_thread_loop.
      cbn [puts thread_prologue switch_relays app].
      apply (loop_epochs cfg inputs (initial_locals t0));
        cbn [initial_locals epoch]; lia.
Qed.

Lemma epoch_counts_completed_charges_witness :
  Sorted Z.le
    (map Ring.epoch
       (puts (sampling_thread_loop Scenario.cfg true Scenario.t0
                [Scenario.at_3100; Scenario.at_2000; Scenario.at_50;
                 Scenario.at_3100; Scenario.at_2000]))) /\
  charging_completes Scenario.cfg (initial_locals Scenario.t0)
    Scenario.at_3100 = true.
Proof.
  destruct (epoch_counts_completed_charges Scenario.cfg Scenario.t0
              [Scenario.at_3100; Scenario.at_2000; Scenario.at_50;
               Scenario.at_3100; Scenario.at_2000])
    as (_ & _ & _ & _ & H).
  destruct H as [_ Hs].
  - cbn [List.length]. lia.
  - split; [exact Hs | reflexivity].
Defined.

(** ** Start-up *)

Section StartUp.

Variable interval_of_frequency_arg : string -> timespec.

Lemma bring_up_starts_with_init cfg logfile env :
  exists tl, fst (bring_up cfg logfile env) = EBcmInit :: tl.
Proof.
  unfold bring_up.
  repeat match goal with
         | |- context [if negb ?b then _ else _] => destruct b; cbn [negb]
         end;
    eexists; cbn [fst]; reflexivity.
Qed.

Lemma main_missing opts env a :
  parse_options no_arguments opts = Some a ->
  required_missing a = true ->
  main interval_of_frequency_arg opts env
  = ([EUsage; EExit (-1)], Exited (-1)).
Proof.
  intros Hp Hm. unfold main. rewrite Hp.
  unfold required_missing in Hm.
  destruct (sampling_frequency_arg a), (logfile_arg a),
    (threshold_lower_arg a), (threshold_upper_arg a);
    try discriminate Hm; reflexivity.
Qed.

Lemma main_complete opts env a :
  parse_options no_arguments opts = Some a ->
  required_missing a = false ->
  exists f o l u,
    sampling_frequency_arg a = Some f /\ logfile_arg a = Some o /\
    threshold_lower_arg a = Some l /\ threshold_upper_arg a = Some u /\
    main interval_of_frequency_arg opts env
    = bring_up (configure interval_of_frequency_arg f l u
                  (task_priority_arg a)) o env.
Proof.
  intros Hp Hm. unfold main. rewrite Hp.
  unfold required_missing in Hm.
  destruct (sampling_frequency_arg a) as [f |], (logfile_arg a) as [o |],
    (threshold_lower_arg a) as [l |], (threshold_upper_arg a) as [u |];
    try discriminate Hm.
  exists f, o, l, u. repeat split.
Qed.

End StartUp.

(** C8, as the code has it. When one of the four required arguments is
    missing, or [getopt] reports an unknown option, [main] prints the usage
    and exits with status -1 without having touched the bus or a relay.
    Nothing else is checked: when the four arguments are present, whatever
    their values, [main] goes on to [bcm2835_init] with the thresholds it
    read. *)
Theorem missing_argument_exits_before_bus
    (interval_of_frequency_arg : string -> timespec) opts env :
  (parse_options no_arguments opts = None ->
   main interval_of_frequency_arg opts env
   = ([EUnknownOption; EUsage; EExit (-1)], Exited (-1)) /\
   fails_before_activity (main interval_of_frequency_arg opts env) = true) /\
  (forall a,
      parse_options no_arguments opts = Some a ->
      required_missing a = true ->
      main interval_of_frequency_arg opts env
      = ([EUsage; EExit (-1)], Exited (-1)) /\
      fails_before_activity (main interval_of_frequency_arg opts env)
      = true) /\
  (forall a,
      parse_options no_arguments opts = Some a ->
      required_missing a = false ->
      fails_before_activity (main interval_of_frequency_arg opts env)
      = false /\
      exists tl,
        fst (main interval_of_frequency_arg opts env) = EBcmInit :: tl).
Proof.
  split; [| split].
  - intros Hp. unfold main. rewrite Hp. split; reflexivity.
  - intros a Hp Hm.
    rewrite (main_missing interval_of_frequency_arg opts env a Hp Hm).
    split; reflexivity.
  - intros a Hp Hm.
    destruct (main_complete interval_of_frequency_arg opts env a Hp Hm)
      as (f & o & l & u & _ & _ & _ & _ & ->).
    destruct (bring_up_starts_with_init
                (configure interval_of_frequency_arg f l u
                   (task_priority_arg a)) o env) as [tl Htl].
    split; [| now exists tl].
    unfold fails_before_activity. rewrite Htl. cbn [existsb].
    cbn [is_bus_or_relay_activity orb negb]. apply andb_false_r.
Qed.

Lemma missing_argument_exits_before_bus_witness :
  main (fun _ => mkTimespec 0 100000000) Scenario.no_logfile
    Scenario.all_calls_succeed
  = ([EUsage; EExit (-1)], Exited (-1)).
Proof.
  destruct (missing_argument_exits_before_bus
              (fun _ => mkTimespec 0 100000000) Scenario.no_logfile
              Scenario.all_calls_succeed) as (_ & H & _).
  apply (H (mkArguments (Some "10"%string) None (Some "3000"%string)
              (Some "100"%string) None)).
  - reflexivity.
  - reflexivity.
Defined.

(** C8 as stated fails: with lower threshold 3000 and upper threshold 100
    all four arguments are there and the ordering is invalid, yet [main]
    initialises the bus, sets up the relay pins and starts both threads on
    these thresholds.  The same happens with the frequency argument -5. *)
Lemma inverted_thresholds_are_accepted :
  exists a,
    parse_options no_arguments Scenario.inverted_thresholds = Some a /\
    threshold_order_invalid a = true /\
    forall interval_of_frequency_arg,
      fails_before_activity
        (main interval_of_frequency_arg Scenario.inverted_thresholds
           Scenario.all_calls_succeed) = false /\
      snd (main interval_of_frequency_arg Scenario.inverted_thresholds
             Scenario.all_calls_succeed)
      = Running (mkConfig 100 3000 (interval_of_frequency_arg "10"%string)
                   DEFAULT_TASK_PRIORITY) /\
      snd (main interval_of_frequency_arg Scenario.negative_frequency
             Scenario.all_calls_succeed)
      = Running (mkConfig 3000 100 (interval_of_frequency_arg "-5"%string)
                   DEFAULT_TASK_PRIORITY).
Proof.
  eexists. split; [reflexivity |]. split; [reflexivity |].
  intros f. repeat split.
Qed.

(** ** The bounded channel *)

Section Channel.

Variable RING_SIZE : nat.

Lemma ring_put_blocks r e :
  ring_put RING_SIZE r e = None <-> (RING_SIZE <= List.length r)%nat.
Proof.
  unfold ring_put.
  destruct (Nat.ltb_spec (List.length r) RING_SIZE); split;
    intros; try discriminate; try reflexivity; lia.
Qed.

Lemma ring_put_room r e :
  (List.length r < RING_SIZE)%nat ->
  ring_put RING_SIZE r e = Some (r ++ [e]).
Proof.
  intros H. unfold ring_put.
  destruct (Nat.ltb_spec (List.length r) RING_SIZE); [reflexivity | lia].
Qed.

Lemma ring_get_blocks r : ring_get r = None <-> r = [].
Proof. destruct r; cbn; split; intros; congruence. Qed.

Lemma step_contents s t : contents (step RING_SIZE s t) = contents s.
Proof.
  unfold contents.
  destruct t; cbn [step].
  - destruct (pending s) as [| e rest] eqn:Hp; [now rewrite Hp |].
    unfold ring_put.
    destruct (List.length (buffer s) <? RING_SIZE)%nat; cbn.
    + now rewrite <- !app_assoc.
    + now rewrite Hp.
  - destruct (buffer s) as [| e r'] eqn:Hb; cbn; [now rewrite Hb |].
    now rewrite <- !app_assoc.
Qed.

Lemma step_bounded s t :
  (List.length (buffer s) <= RING_SIZE)%nat ->
  (List.length (buffer (step RING_SIZE s t)) <= RING_SIZE)%nat.
Proof.
  intros Hb. destruct t; cbn [step].
  - destruct (pending s) as [| e rest]; [exact Hb |].
    unfold ring_put.
    destruct (Nat.ltb_spec (List.length (buffer s)) RING_SIZE); cbn.
    + rewrite length_app. cbn. lia.
    + exact Hb.
  - destruct (buffer s) as [| e r'] eqn:E; cbn in *; [rewrite E; cbn |]; lia.
Qed.

Lemma run_invariant sched :
  forall s,
    (List.length (buffer s) <= RING_SIZE)%nat ->
    contents (run RING_SIZE s sched) = contents s /\
    (List.length (buffer (run RING_SIZE s sched)) <= RING_SIZE)%nat.
Proof.
  unfold run.
  induction sched as [| t sched IH]; intros s Hb; cbn [fold_left].
  - split; [reflexivity | exact Hb].
  - destruct (IH (step RING_SIZE s t) (step_bounded s t Hb)) as [Hc Hl].
    rewrite Hc, step_contents. split; [reflexivity | exact Hl].
Qed.

Lemma put_then_get e rest got :
  (0 < RING_SIZE)%nat ->
  step RING_SIZE (step RING_SIZE (mkSystem (e :: rest) [] got) Producer)
    Consumer
  = mkSystem rest [] (got ++ [e]).
Proof.
  intros Hcap. cbn [step pending buffer consumed].
  rewrite ring_put_room by (cbn; lia).
  reflexivity.
Qed.

Lemma alternate_delivers records :
  (0 < RING_SIZE)%nat ->
  forall got,
    run RING_SIZE (mkSystem records [] got)
      (alternate (List.length records))
    = mkSystem [] [] (got ++ records).
Proof.
  intros Hcap. unfold run.
  induction records as [| e rest IH]; intros got; cbn [List.length alternate].
  - cbn. now rewrite app_nil_r.
  - cbn [fold_left]. rewrite put_then_get by assumption.
    rewrite IH. now rewrite <- app_assoc.
Qed.

End Channel.

(** C9. Whatever the capacity and however the two threads are scheduled,
    the records the consumer has got, followed by those queued in the
    channel and those the producer has yet to put, are the produced
    sequence: nothing is lost, doubled or reordered, and once the consumer
    has got as many records as were produced it has got exactly the produced
    sequence.  A put blocks exactly when the buffer holds [RING_SIZE]
    records or more and a get exactly when it is empty; the buffer never
    holds more than [RING_SIZE].  With a capacity of at least one, letting
    the threads alternate delivers all the records. *)
Theorem channel_is_fifo RING_SIZE records sched :
  let s := run RING_SIZE (start records) sched in
  consumed s ++ buffer s ++ pending s = records /\
  (List.length (buffer s) <= RING_SIZE)%nat /\
  (List.length (consumed s) = List.length records -> consumed s = records) /\
  (forall r e,
      ring_put RING_SIZE r e = None <-> (RING_SIZE <= List.length r)%nat) /\
  (forall r e,
      (List.length r < RING_SIZE)%nat ->
      ring_put RING_SIZE r e = Some (r ++ [e])) /\
  (forall r, ring_get r = None <-> r = []) /\
  (forall r e r', ring_get (e :: r) = Some (e, r) /\
                  (ring_get r = Some (e, r') -> r = e :: r')) /\
  ((0 < RING_SIZE)%nat ->
   run RING_SIZE (start records) (alternate (List.length records))
   = mkSystem [] [] records).
Proof.
  intros s.
  destruct (run_invariant RING_SIZE sched (start records)) as [Hc Hl];
    [cbn; lia |].
  fold s in Hc, Hl. unfold contents in Hc. cbn in Hc.
  split; [exact Hc |]. split; [exact Hl |].
  split.
  { intros Hlen.
    assert (Hrest : buffer s ++ pending s = []).
    { apply length_zero_iff_nil.
      apply (f_equal (@List.length ring_entry)) in Hc.
      rewrite length_app in Hc. lia. }
    rewrite Hrest, app_nil_r in Hc. exact Hc. }
  split; [apply ring_put_blocks |].
  split; [apply ring_put_room |].
  split; [apply ring_get_blocks |].
  split.
  { intros r e r'. split; [reflexivity |].
    destruct r; cbn; intros H; [discriminate | now injection H as -> ->]. }
  intros Hcap. apply (alternate_delivers RING_SIZE records Hcap []).
Qed.

Lemma channel_is_fifo_witness :
  consumed
    (run 2 (start Scenario.three_records)
       [Producer; Producer; Producer; Consumer; Producer; Consumer; Consumer])
  = Scenario.three_records /\
  run 1 (start Scenario.three_records) (alternate 3)
  = mkSystem [] [] Scenario.three_records.
Proof.
  destruct (channel_is_fifo 2 Scenario.three_records
              [Producer; Producer; Producer; Consumer; Producer; Consumer;
               Consumer]) as (_ & _ & H & _).
  destruct (channel_is_fifo 1 Scenario.three_records [])
    as (_ & _ & _ & _ & _ & _ & _ & D).
  split.
  - apply H. reflexivity.
  - apply D. lia.
Defined.

(** * Part III: further properties of the code *)

(** ** mcp320x.c: the request byte and the decoding *)

Lemma config_byte_value n : 0 <= n <= 7 -> config_byte n = 192 + 8 * n.
Proof.
  intros Hn.
  assert (H : n = 0 \/ n = 1 \/ n = 2 \/ n = 3 \/ n = 4 \/ n = 5 \/ n = 6
              \/ n = 7) by lia.
  repeat (destruct H as [-> | H]; [reflexivity |]). subst n. reflexivity.
Qed.

(** X1. For the channel numbers 0 to 7 the byte sent to the converter is
    [0xC0 + 8 * n]: it fits in a byte, has the start bit and the
    single-ended bit set, carries the channel number in bits 5 to 3 and
    nothing below; different single-ended channels send different bytes. *)
Theorem config_byte_layout n :
  0 <= n <= 7 ->
  config_byte n = 192 + 8 * n /\
  is_uint8 (config_byte n) /\
  Z.land (config_byte n) startbit = startbit /\
  Z.land (config_byte n) sebit = sebit /\
  Z.land (Z.shiftr (config_byte n) 3) 7 = n /\
  Z.land (config_byte n) 7 = 0 /\
  (forall c c',
      valid_channel c -> request_singleended c = request_singleended c' ->
      c = c').
Proof.
  intros Hn.
  assert (H : n = 0 \/ n = 1 \/ n = 2 \/ n = 3 \/ n = 4 \/ n = 5 \/ n = 6
              \/ n = 7) by lia.
  split; [now apply config_byte_value |].
  split; [rewrite config_byte_value by assumption; unfold is_uint8; lia |].
  repeat split;
    try (repeat (destruct H as [-> | H]; [reflexivity |]);
         subst n; reflexivity).
  intros c c' Hc. unfold valid_channel in Hc.
  destruct c, c'; cbn; intros E; try reflexivity; try congruence;
    discriminate E.
Qed.

Lemma config_byte_layout_witness :
  config_byte 5 = 232 /\ Z.land (Z.shiftr (config_byte 5) 3) 7 = 5.
Proof.
  destruct (config_byte_layout 5) as (H1 & _ & _ & _ & H2 & _); [lia |].
  split; [exact H1 | exact H2].
Defined.

Lemma code_parts v :
  0 <= v <= 4095 -> 2048 * (v / 2048) + 8 * ((v / 8) mod 256) + v mod 8 = v.
Proof.
  intros Hv.
  pose proof (Z.div_mod v 2048 ltac:(lia)).
  pose proof (Z.mod_pos_bound v 2048 ltac:(lia)).
  pose proof (Z.div_mod v 8 ltac:(lia)).
  pose proof (Z.mod_pos_bound v 8 ltac:(lia)).
  pose proof (Z.div_mod (v / 8) 256 ltac:(lia)).
  pose proof (Z.mod_pos_bound (v / 8) 256 ltac:(lia)).
  assert (v / 8 / 256 = v / 2048) by (rewrite Z.div_div by lia; reflexivity).
  lia.
Qed.

Lemma code12_reply_of_code v :
  0 <= v <= 4095 -> code12 (reply_of_code v) = v.
Proof.
  intros Hv. unfold code12, reply_of_code; cbn [rx0 rx1 rx2].
  rewrite Z.div_mul by lia.
  rewrite (Z.mod_small (v / 2048) 2)
    by (split; [apply Z.div_pos; lia | apply Z.div_lt_upper_bound; lia]).
  now apply code_parts.
Qed.

Lemma reply_of_code_ok v : 0 <= v <= 4095 -> reply_ok (reply_of_code v).
Proof.
  intros Hv. unfold reply_ok, is_uint8, reply_of_code; cbn [rx0 rx1 rx2].
  pose proof (Z.mod_pos_bound (v / 8) 256 ltac:(lia)).
  pose proof (Z.mod_pos_bound v 8 ltac:(lia)).
  assert (0 <= v / 2048 < 2)
    by (split; [apply Z.div_pos; lia | apply Z.div_lt_upper_bound; lia]).
  lia.
Qed.

(** X2. The decoding of [sample] reaches every 12-bit code: the reply that
    carries the code [v] in bit 0 of the first byte, the second byte and
    the top three bits of the third decodes to [v].  The seven upper bits of
    the first byte and the five lower bits of the third never matter: two
    replies that agree on the twelve bits decode alike. *)
Theorem sample_decodes_every_code v channel_config :
  0 <= v <= 4095 ->
  reply_ok (reply_of_code v) /\
  sample channel_config (reply_of_code v) = v /\
  (forall d channel_config',
      reply_ok d ->
      rx0 d mod 2 = v / 2048 -> rx1 d = (v / 8) mod 256 ->
      rx2 d / 32 = v mod 8 ->
      sample channel_config' d = v).
Proof.
  intros Hv.
  pose proof (reply_of_code_ok v Hv) as Hok.
  pose proof (code12_reply_of_code v Hv) as Hc.
  split; [exact Hok |].
  split; [now rewrite sample_code12 |].
  intros d cc Hd E0 E1 E2.
  rewrite sample_code12 by assumption.
  unfold code12. rewrite E0, E1, E2.
  now apply code_parts.
Qed.

Lemma sample_decodes_every_code_witness :
  sample 0 (reply_of_code 3423) = 3423 /\
  sample 0 (mkReply 0xff 0xab 0xff) = 3423.
Proof.
  destruct (sample_decodes_every_code 3423 0) as (_ & H & Hd); [lia |].
  split; [exact H |].
  apply Hd.
  - unfold reply_ok, is_uint8; cbn; lia.
  - reflexivity.
  - reflexivity.
  - reflexivity.
Defined.

(** X3. [get_sample_diff] goes through the same [sample] as the
    single-ended entry point, which always sets the single-ended bit: for
    each differential pair the byte sent is the one of the single-ended
    channel with the same number, single-ended bit included, and the value
    returned for a reply is the same.  Any other argument gives [-1]
    without a request. *)
Theorem get_sample_diff_requests_single_ended c :
  (c <> CHD_other ->
   exists c' b,
     valid_channel c' /\
     diff_channel_number c = channel_number c' /\
     request_diff c = Some b /\ request_singleended c' = Some b /\
     Z.land b sebit = sebit /\
     forall data, get_sample_diff c data = get_sample_singleended c' data) /\
  request_diff CHD_other = None /\
  (forall data, get_sample_diff CHD_other data = -1).
Proof.
  split; [| split; reflexivity].
  intros Hc.
  destruct c; try congruence;
    [ exists CH0 | exists CH1 | exists CH2 | exists CH3
    | exists CH4 | exists CH5 | exists CH6 | exists CH7 ];
    eexists; unfold valid_channel;
    (split; [discriminate |]); (split; [reflexivity |]);
    (split; [reflexivity |]); (split; [reflexivity |]);
    (split; [reflexivity |]); intros data; reflexivity.
Qed.

Lemma get_sample_diff_requests_single_ended_witness :
  exists c' b,
    valid_channel c' /\
    diff_channel_number CH2CH3 = channel_number c' /\
    request_diff CH2CH3 = Some b /\ request_singleended c' = Some b /\
    Z.land b sebit = sebit /\
    forall data, get_sample_diff CH2CH3 data = get_sample_singleended c' data.
Proof.
  apply (get_sample_diff_requests_single_ended CH2CH3). discriminate.
Defined.

(** ** low-energy-meter.c: time arithmetic *)

Lemma to_int64_fits z : fits_int64 z -> to_int64 z = z.
Proof.
  unfold fits_int64, to_int64.
  change (2 ^ 63) with 9223372036854775808.
  change (2 ^ 64) with 18446744073709551616.
  intros Hz.
  pose proof (Z.div_mod z 18446744073709551616 ltac:(lia)) as Hd.
  pose proof (Z.mod_pos_bound z 18446744073709551616 ltac:(lia)) as Hm.
  destruct (Z.ltb_spec (z mod 18446744073709551616) 9223372036854775808);
    lia.
Qed.

Lemma next_sampling_time_fits tlast interval :
  additions_fit tlast interval ->
  next_sampling_time tlast interval
  = if tv_nsec tlast + tv_nsec interval >=? 1000000000
    then mkTimespec (tv_sec tlast + tv_sec interval + 1)
           (tv_nsec tlast + tv_nsec interval - 1000000000)
    else mkTimespec (tv_sec tlast + tv_sec interval)
           (tv_nsec tlast + tv_nsec interval).
Proof.
  intros (Hs & Hn & Hc). unfold next_sampling_time.
  rewrite (to_int64_fits _ Hs), (to_int64_fits _ Hn).
  destruct (Z.geb_spec (tv_nsec tlast + tv_nsec interval) 1000000000)
    as [Hge | Hlt]; [| reflexivity].
  rewrite (to_int64_fits _ (Hc Hge)).
  rewrite to_int64_fits; [reflexivity |].
  unfold fits_int64 in *. lia.
Qed.

Lemma total_ns_next t i :
  additions_fit t i ->
  total_ns (next_sampling_time t i) = total_ns t + total_ns i.
Proof.
  intros H. rewrite (next_sampling_time_fits t i H). unfold total_ns.
  destruct (tv_nsec t + tv_nsec i >=? 1000000000); cbn [tv_sec tv_nsec]; lia.
Qed.

(** X4. As long as its additions stay within the 64-bit range of [time_t]
    and [long], [next_sampling_time] adds the two times exactly, as
    nanoseconds.  It carries at most once: on normalised arguments the
    result is normalised, but when the nanosecond fields add up to two
    seconds or more the result is not. *)
Theorem next_sampling_time_adds tlast interval :
  additions_fit tlast interval ->
  total_ns (next_sampling_time tlast interval)
  = total_ns tlast + total_ns interval /\
  (normalised tlast -> normalised interval ->
   normalised (next_sampling_time tlast interval)) /\
  (2000000000 <= tv_nsec tlast + tv_nsec interval ->
   ~ normalised (next_sampling_time tlast interval)).
Proof.
  intros H. split; [now apply total_ns_next |].
  rewrite (next_sampling_time_fits tlast interval H).
  unfold normalised.
  destruct (Z.geb_spec (tv_nsec tlast + tv_nsec interval) 1000000000);
    cbn [tv_sec tv_nsec]; split; intros; lia.
Qed.

Lemma next_sampling_time_adds_witness :
  total_ns
    (next_sampling_time (mkTimespec 5 900000000) (mkTimespec 0 100000000))
  = 6000000000 /\
  normalised
    (next_sampling_time (mkTimespec 5 900000000) (mkTimespec 0 100000000)) /\
  ~ normalised
      (next_sampling_time (mkTimespec 5 1200000000) (mkTimespec 0 900000000)).
Proof.
  assert (F1 : additions_fit (mkTimespec 5 900000000)
                 (mkTimespec 0 100000000))
    by (unfold additions_fit, fits_int64; cbn; lia).
  assert (F2 : additions_fit (mkTimespec 5 1200000000)
                 (mkTimespec 0 900000000))
    by (unfold additions_fit, fits_int64; cbn; lia).
  destruct (next_sampling_time_adds _ _ F1) as (T1 & N1 & _).
  destruct (next_sampling_time_adds _ _ F2) as (_ & _ & N2).
  split; [exact T1 |]. split.
  - apply N1; unfold normalised; cbn; lia.
  - apply N2. cbn. lia.
Defined.

Lemma to_nanosec_mod t : to_nanosec t = total_ns t mod 2 ^ 64.
Proof.
  unfold to_nanosec, to_uint64, total_ns.
  rewrite Zmult_mod_idemp_r.
  rewrite <- Zplus_mod.
  reflexivity.
Qed.

(** X5. [to_nanosec] is the number of nanoseconds of its argument reduced
    modulo 2^64, hence exact whenever that number fits [uint64_t].  The
    split of [frequency_to_interval] is its inverse: for each [uint64_t]
    number of nanoseconds the interval built from it is normalised, has a
    non-negative seconds field, and converts back to the same number. *)
Theorem to_nanosec_inverts_interval_split t ins :
  to_nanosec t = total_ns t mod 2 ^ 64 /\
  (0 <= total_ns t < 2 ^ 64 -> to_nanosec t = total_ns t) /\
  (0 <= ins < 2 ^ 64 ->
   normalised (interval_of_ins ins) /\
   0 <= tv_sec (interval_of_ins ins) /\
   to_nanosec (interval_of_ins ins) = ins).
Proof.
  split; [apply to_nanosec_mod |].
  split.
  - intros H. rewrite to_nanosec_mod. now apply Z.mod_small.
  - intros H.
    pose proof (Z.mod_pos_bound ins 1000000000 ltac:(lia)) as Hm.
    pose proof (Z.div_mod ins 1000000000 ltac:(lia)) as Hd.
    split; [exact Hm |].
    split; [cbn; apply Z.div_pos; lia |].
    rewrite to_nanosec_mod. unfold total_ns, interval_of_ins.
    cbn [tv_sec tv_nsec]. rewrite <- Hd. now apply Z.mod_small.
Qed.

Lemma to_nanosec_inverts_interval_split_witness :
  to_nanosec (mkTimespec 5 200300000) = 5200300000 /\
  to_nanosec (interval_of_ins 100000000) = 100000000.
Proof.
  destruct (to_nanosec_inverts_interval_split (mkTimespec 5 200300000)
              100000000) as (_ & H1 & H2).
  split.
  - apply H1. cbn. lia.
  - apply H2. lia.
Defined.

(** ** low-energy-meter.c: runs of the sampling loop *)

Section Runs.

Variable cfg : config.

Lemma quiet_inv s i :
  quiet cfg s i = true ->
  sample_value i <> -1 /\
  match s with
  | charging => sample_value i < threshold_upper cfg
  | discharging => threshold_lower cfg < sample_value i
  end.
Proof.
  unfold quiet. rewrite andb_true_iff, negb_true_iff, Z.eqb_neq.
  intros [Hn H]. split; [exact Hn |].
  destruct s; now apply Z.ltb_lt.
Qed.

Lemma quiet_step st i :
  quiet cfg (state st) i = true ->
  state (fst (loop_body cfg st i)) = state st /\
  epoch (fst (loop_body cfg st i)) = epoch st /\
  tsample (fst (loop_body cfg st i))
  = next_sampling_time (tsample st) (sampling_interval cfg) /\
  existsb is_relay_command (snd (loop_body cfg st i)) = false.
Proof.
  intros Hq. apply quiet_inv in Hq as [Hn Hc].
  destruct (state st) eqn:Hs.
  - rewrite (loop_body_charging cfg st i Hn Hs Hc). repeat split.
  - rewrite (loop_body_discharging cfg st i Hn Hs Hc). repeat split.
Qed.

Lemma quiet_run inputs :
  forall st,
    forallb (quiet cfg (state st)) inputs = true ->
    state (fst (loop cfg st inputs)) = state st /\
    epoch (fst (loop cfg st inputs)) = epoch st /\
    existsb is_relay_command (snd (loop cfg st inputs)) = false /\
    (state st = charging -> puts (snd (loop cfg st inputs)) = []).
Proof.
  induction inputs as [| i rest IH]; intros st Hq.
  - cbn. repeat split.
  - cbn [forallb] in Hq. apply andb_true_iff in Hq as [Hi Hrest].
    destruct (quiet_step st i Hi) as (Hs & He & Ht & Hr).
    rewrite <- Hs in Hrest.
    destruct (IH _ Hrest) as (Hs' & He' & Hr' & Hp').
    rewrite loop_cons; cbn [fst snd].
    rewrite Hs', He', Hs, He.
    rewrite existsb_app, Hr, Hr'.
    repeat split.
    intros Hc. rewrite puts_app, puts_loop_body, Hp' by congruence.
    unfold recorded; cbn [fst]. now rewrite Hc.
Qed.

(** One step of the baseline, with the bounds that keep the next steps in
    range. *)
Lemma baseline_step t i :
  0 <= tv_sec t -> normalised t -> 0 <= tv_sec i -> normalised i ->
  tv_sec t + tv_sec i + 1 < 2 ^ 63 ->
  total_ns (next_sampling_time t i) = total_ns t + total_ns i /\
  normalised (next_sampling_time t i) /\
  0 <= tv_sec (next_sampling_time t i) <= tv_sec t + tv_sec i + 1.
Proof.
  intros Ht Hnt Hi Hni Hb. unfold normalised in *.
  assert (Hfit : additions_fit t i).
  { unfold additions_fit, fits_int64.
    change (2 ^ 63) with 9223372036854775808 in *. lia. }
  split; [now apply total_ns_next |].
  rewrite (next_sampling_time_fits t i Hfit).
  destruct (Z.geb_spec (tv_nsec t + tv_nsec i) 1000000000);
    cbn [tv_sec tv_nsec]; lia.
Qed.

Lemma quiet_run_baseline inputs :
  forall st,
    forallb (quiet cfg (state st)) inputs = true ->
    0 <= tv_sec (tsample st) -> normalised (tsample st) ->
    0 <= tv_sec (sampling_interval cfg) ->
    normalised (sampling_interval cfg) ->
    tv_sec (tsample st)
    + Z.of_nat (List.length inputs) * (tv_sec (sampling_interval cfg) + 1)
    < 2 ^ 63 ->
    total_ns (tsample (fst (loop cfg st inputs)))
    = total_ns (tsample st)
      + Z.of_nat (List.length inputs) * total_ns (sampling_interval cfg) /\
    normalised (tsample (fst (loop cfg st inputs))).
Proof.
  induction inputs as [| i rest IH]; intros st Hq Ht Hnt Hi Hni Hb.
  - cbn. split; [lia | exact Hnt].
  - cbn [forallb] in Hq. apply andb_true_iff in Hq as [Hq1 Hrest].
    destruct (quiet_step st i Hq1) as (Hs & _ & Hts & _).
    rewrite <- Hs in Hrest.
    cbn [List.length] in Hb. rewrite Nat2Z.inj_succ in Hb.
    destruct (baseline_step (tsample st) (sampling_interval cfg))
      as (Htot & Hn' & Hsec); try assumption; [nia |].
    rewrite <- Hts in Htot, Hn', Hsec.
    destruct (IH _ Hrest) as [Htot' Hn'']; try assumption; [lia | nia |].
    rewrite loop_cons; cbn [fst].
    split; [| exact Hn''].
    rewrite Htot', Htot. cbn [List.length]. rewrite Nat2Z.inj_succ. lia.
Qed.

Lemma closings_app p a b : closings p (a ++ b) = closings p a + closings p b.
Proof.
  induction a as [| e a IH]; [reflexivity |].
  destruct e as [q | q | q | | | | | | | | | | | | | | | | | | | | | | | | | | |];
    cbn [app closings]; try exact IH.
  destruct q, p; rewrite ?IH; lia.
Qed.

Lemma loop_body_closings st i :
  0 <= epoch st -> epoch st + 1 < 2 ^ 64 ->
  epoch (fst (loop_body cfg st i))
  = epoch st + closings discharge_pin (snd (loop_body cfg st i)) /\
  closings charge_pin (snd (loop_body cfg st i))
  + (if is_discharging (state (fst (loop_body cfg st i))) then 1 else 0)
  = closings discharge_pin (snd (loop_body cfg st i))
    + (if is_discharging (state st) then 1 else 0).
Proof.
  intros H0 H1.
  by_branch cfg st i; cbn [fst snd epoch state]; rewrite ?Hs;
    cbn [app switch_relays closings is_discharging];
    rewrite ?to_uint64_succ by assumption; lia.
Qed.

Lemma loop_closings inputs :
  forall st,
    0 <= epoch st ->
    epoch st + Z.of_nat (List.length inputs) < 2 ^ 64 ->
    epoch (fst (loop cfg st inputs))
    = epoch st + closings discharge_pin (snd (loop cfg st inputs)) /\
    closings charge_pin (snd (loop cfg st inputs))
    + (if is_discharging (state (fst (loop cfg st inputs))) then 1 else 0)
    = closings discharge_pin (snd (loop cfg st inputs))
      + (if is_discharging (state st) then 1 else 0).
Proof.
  induction inputs as [| i rest IH]; intros st H0 Hlen.
  - cbn. lia.
  - cbn [List.length] in Hlen. rewrite Nat2Z.inj_succ in Hlen.
    pose proof (epoch_step_bounds cfg st i H0 ltac:(lia)) as Hb.
    destruct (loop_body_closings st i H0 ltac:(lia)) as [Hd Hc].
    destruct (IH (fst (loop_body cfg st i)) ltac:(lia) ltac:(lia))
      as [Hd' Hc'].
    rewrite loop_cons; cbn [fst snd]. rewrite !closings_app. lia.
Qed.

Lemma loop_record_epochs inputs :
  forall st,
    0 <= epoch st ->
    (state st = discharging -> 1 <= epoch st) ->
    epoch st + Z.of_nat (List.length inputs) < 2 ^ 64 ->
    Forall (fun e => 1 <= Ring.epoch e) (puts (snd (loop cfg st inputs))).
Proof.
  induction inputs as [| i rest IH]; intros st H0 Hd Hlen.
  - constructor.
  - cbn [List.length] in Hlen. rewrite Nat2Z.inj_succ in Hlen.
    pose proof (epoch_step_bounds cfg st i H0 ltac:(lia)) as Hb.
    assert (Hd' : state (fst (loop_body cfg st i)) = discharging ->
                  1 <= epoch (fst (loop_body cfg st i))).
    { revert Hb.
      by_branch cfg st i; cbn [fst state epoch]; intros Hb Hs';
        try congruence; try (specialize (Hd Hs); lia).
      - apply Hd in Hs'. lia.
      - rewrite to_uint64_succ in * by lia. lia. }
    rewrite loop_cons; cbn [snd]. rewrite puts_app, puts_loop_body.
    apply Forall_app. split; [| apply IH; lia || assumption].
    destruct (recorded (st, i)) eqn:R; [| constructor].
    apply recorded_iff in R as [Rs _].
    constructor; [cbn; auto | constructor].
Qed.

Lemma loop_timestamps (P : Z -> Prop) inputs :
  forall st,
    Forall P (map (fun i => to_nanosec (tnow i)) inputs) ->
    Forall P (map timestamp (puts (snd (loop cfg st inputs)))).
Proof.
  induction inputs as [| i rest IH]; intros st H; [constructor |].
  cbn [map] in H. apply Forall_cons_iff in H as [Hi Hrest].
  rewrite loop_cons; cbn [snd]. rewrite puts_app, puts_loop_body, map_app.
  apply Forall_app. split; [| now apply IH].
  destruct (recorded (st, i)); constructor; [exact Hi | constructor].
Qed.

Lemma loop_timestamps_sorted inputs :
  forall st,
    StronglySorted Z.le (map (fun i => to_nanosec (tnow i)) inputs) ->
    StronglySorted Z.le (map timestamp (puts (snd (loop cfg st inputs)))).
Proof.
  induction inputs as [| i rest IH]; intros st H; [constructor |].
  cbn [map] in H. apply StronglySorted_inv in H as [Hs Hall].
  rewrite loop_cons; cbn [snd]. rewrite puts_app, puts_loop_body.
  destruct (recorded (st, i)); cbn [app map].
  - constructor; [now apply IH |].
    now apply loop_timestamps.
  - now apply IH.
Qed.

End Runs.

(** X6. While the readings keep the loop in its state (no failed reading,
    no threshold reached), state and epoch stay and no relay is commanded.
    If moreover the baseline and the sampling interval are normalised with
    non-negative seconds, and the seconds stay below 2^63 over the run, the
    deadline baseline moves by exactly one sampling interval per iteration
    and stays normalised: after [n] iterations it is the old baseline plus
    [n] intervals, whatever the clock showed when the samples were taken. *)
Theorem deadlines_do_not_drift cfg st inputs :
  forallb (quiet cfg (state st)) inputs = true ->
  (state (fst (loop cfg st inputs)) = state st /\
   epoch (fst (loop cfg st inputs)) = epoch st /\
   existsb is_relay_command (snd (loop cfg st inputs)) = false) /\
  (0 <= tv_sec (tsample st) -> normalised (tsample st) ->
   0 <= tv_sec (sampling_interval cfg) ->
   normalised (sampling_interval cfg) ->
   tv_sec (tsample st)
   + Z.of_nat (List.length inputs) * (tv_sec (sampling_interval cfg) + 1)
   < 2 ^ 63 ->
   total_ns (tsample (fst (loop cfg st inputs)))
   = total_ns (tsample st)
     + Z.of_nat (List.length inputs) * total_ns (sampling_interval cfg) /\
   normalised (tsample (fst (loop cfg st inputs)))).
Proof.
  intros Hq.
  destruct (quiet_run cfg inputs st Hq) as (H1 & H2 & H3 & _).
  split; [repeat split; assumption |].
  intros. now apply quiet_run_baseline.
Qed.

Lemma deadlines_do_not_drift_witness :
  total_ns
    (tsample
       (fst (loop Scenario.cfg Scenario.discharging_1
               [Scenario.at_2000; Scenario.at_2000; Scenario.at_2000])))
  = total_ns (tsample Scenario.discharging_1) + 3 * 100000000.
Proof.
  apply (deadlines_do_not_drift Scenario.cfg Scenario.discharging_1
           [Scenario.at_2000; Scenario.at_2000; Scenario.at_2000]).
  - reflexivity.
  - cbn. lia.
  - unfold normalised. cbn. lia.
  - cbn. lia.
  - unfold normalised. cbn. lia.
  - cbn. lia.
Defined.

(** X7. The relays follow the state.  After any number of complete
    iterations the charge relay is the one commanded closed if the state is
    charging and the discharge relay if it is discharging, the other one
    being commanded open; for the thread this holds from whatever levels the
    pins had before [setup_gpio]. *)
Theorem relays_follow_state cfg st inputs r0 t0 :
  relays_after (relays_of (state st)) (snd (loop cfg st inputs))
  = relays_of (state (fst (loop cfg st inputs))) /\
  relays_after r0 (setup_gpio ++ sampling_thread_loop cfg true t0 inputs)
  = relays_of (state (fst (loop cfg (initial_locals t0) inputs))).
Proof.
  split; [apply loop_relays |].
  rewrite relays_after_app, setup_gpio_opens_both.
  unfold sampling_thread_loop.
  change (ESchedSetscheduler (task_priority cfg)
            :: thread_prologue ++ snd (loop cfg (initial_locals t0) inputs))
    with ((ESchedSetscheduler (task_priority cfg) :: thread_prologue)
            ++ snd (loop cfg (initial_locals t0) inputs)).
  rewrite relays_after_app.
  apply (loop_relays cfg inputs (initial_locals t0)).
Qed.

(** X8. In a run of fewer than 2^64 iterations the epoch is the number of
    times the thread has closed the discharge relay; the charge relay has
    been closed once more than that while the state is charging, and
    equally often while it is discharging. *)
Theorem epoch_counts_discharge_closings cfg t0 inputs :
  Z.of_nat (List.length inputs) < 2 ^ 64 ->
  let tr := sampling_thread_loop cfg true t0 inputs in
  let st := fst (loop cfg (initial_locals t0) inputs) in
  epoch st = closings discharge_pin tr /\
  closings charge_pin tr
  = epoch st + (if is_discharging (state st) then 0 else 1).
Proof.
  intros Hlen tr st.
  destruct (loop_closings cfg inputs (initial_locals t0))
    as [Hd Hc]; [cbn; lia | cbn [initial_locals epoch]; lia |].
  fold st in Hd, Hc.
  unfold tr, sampling_thread_loop.
  cbn [thread_prologue switch_relays app closings].
  cbn [initial_locals epoch state is_discharging] in Hd, Hc.
  destruct (is_discharging (state st)); lia.
Qed.

Lemma epoch_counts_discharge_closings_witness :
  closings discharge_pin
    (sampling_thread_loop Scenario.cfg true Scenario.t0
       [Scenario.at_3100; Scenario.at_2000; Scenario.at_50;
        Scenario.at_3100])
  = 2.
Proof.
  destruct (epoch_counts_discharge_closings Scenario.cfg Scenario.t0
              [Scenario.at_3100; Scenario.at_2000; Scenario.at_50;
               Scenario.at_3100]) as [H _].
  - cbn [List.length]. lia.
  - rewrite <- H. reflexivity.
Defined.

(** X9. The counter starts at 0, but no record carries epoch 0: the first
    discharging phase already has epoch 1.  In a run of fewer than 2^64
    iterations every record pushed to the channel has an epoch of at least
    1. *)
Theorem records_have_positive_epoch cfg t0 inputs :
  Z.of_nat (List.length inputs) < 2 ^ 64 ->
  Forall (fun e => 1 <= Ring.epoch e)
    (puts (sampling_thread_loop cfg true t0 inputs)).
Proof.
  intros Hlen. unfold sampling_thread_loop.
  cbn [puts thread_prologue switch_relays app].
  apply loop_record_epochs; cbn [initial_locals epoch state];
    try lia; discriminate.
Qed.

Lemma records_have_positive_epoch_witness :
  Forall (fun e => 1 <= Ring.epoch e)
    (puts (sampling_thread_loop Scenario.cfg true Scenario.t0
             [Scenario.at_3100; Scenario.at_2000; Scenario.at_50])).
Proof.
  apply (records_have_positive_epoch Scenario.cfg Scenario.t0
           [Scenario.at_3100; Scenario.at_2000; Scenario.at_50]).
  cbn [List.length]. lia.
Defined.

Lemma clock_stamp t : clock_value t -> to_nanosec t = total_ns t.
Proof.
  intros (Hs & Hn & Hb). unfold normalised in Hn.
  rewrite to_nanosec_mod. apply Z.mod_small.
  unfold total_ns in *. lia.
Qed.

Lemma timespec_le_total a b :
  normalised a -> normalised b -> timespec_le a b ->
  total_ns a <= total_ns b.
Proof. unfold normalised, timespec_le, total_ns. lia. Qed.

Lemma clock_stamps_sorted inputs :
  Forall (fun i => clock_value (tnow i)) inputs ->
  StronglySorted (fun a b => timespec_le (tnow a) (tnow b)) inputs ->
  StronglySorted Z.le (map (fun i => to_nanosec (tnow i)) inputs).
Proof.
  intros Hc Hs. induction Hs as [| i rest Hs IH Hall]; [constructor |].
  apply Forall_cons_iff in Hc as [Hi Hrest].
  cbn [map]. constructor; [now apply IH |].
  apply Forall_map. rewrite Forall_forall in *.
  intros j Hj. rewrite (clock_stamp _ Hi), (clock_stamp _ (Hrest j Hj)).
  destruct Hi as (_ & Hni & _). destruct (Hrest j Hj) as (_ & Hnj & _).
  apply timespec_le_total; auto.
Qed.

(** X10. The time stamps of the records are those of their readings, in
    reading order: every property all the readings' time stamps have, the
    records' time stamps have.  When the clock values read are proper
    (non-negative seconds, normalised, fitting [uint64_t] as nanoseconds),
    each record's time stamp is exactly the nanoseconds of the clock value
    of one of the readings, and when moreover these clock values do not
    decrease along the run, the time stamps do not decrease from one
    record to the next. *)
Theorem record_timestamps_follow_clock cfg st inputs :
  (forall P : Z -> Prop,
      Forall P (map (fun i => to_nanosec (tnow i)) inputs) ->
      Forall P (map timestamp (puts (snd (loop cfg st inputs))))) /\
  (Forall (fun i => clock_value (tnow i)) inputs ->
   Forall (fun z => exists i, In i inputs /\ z = total_ns (tnow i))
     (map timestamp (puts (snd (loop cfg st inputs)))) /\
   (StronglySorted (fun a b => timespec_le (tnow a) (tnow b)) inputs ->
    Sorted Z.le (map timestamp (puts (snd (loop cfg st inputs)))))).
Proof.
  split; [intros P; apply loop_timestamps |].
  intros Hc. split.
  - apply loop_timestamps. apply Forall_map.
    rewrite Forall_forall in *. intros i Hi.
    exists i. split; [exact Hi | now apply clock_stamp, Hc].
  - intros Hs. apply StronglySorted_Sorted, loop_timestamps_sorted.
    now apply clock_stamps_sorted.
Qed.

Lemma record_timestamps_follow_clock_witness :
  Sorted Z.le
    (map timestamp
       (puts (snd (loop Scenario.cfg (initial_locals Scenario.t0)
                     [Scenario.at_3100; Scenario.at_2000; Scenario.at_50])))).
Proof.
  apply (record_timestamps_follow_clock Scenario.cfg
           (initial_locals Scenario.t0)
           [Scenario.at_3100; Scenario.at_2000; Scenario.at_50]).
  - repeat constructor; unfold normalised; cbn; lia.
  - repeat constructor; unfold timespec_le; cbn; lia.
Defined.

Lemma read_adc_quiet cfg x :
  4095 < threshold_upper cfg ->
  reply_ok (fst (fst x)) ->
  quiet cfg charging (read_adc x) = true.
Proof.
  intros Hu Hok. unfold quiet, read_adc; cbn [sample_value].
  unfold get_sample_singleended, adc_channel; cbn [channel_number].
  rewrite sample_code12 by assumption.
  pose proof (code12_range _ Hok) as Hr.
  apply andb_true_iff. split.
  - apply negb_true_iff, Z.eqb_neq. lia.
  - apply Z.ltb_lt. lia.
Qed.

(** X11. An upper threshold above 4095 is never reached by a sample of the
    converter: whatever the replies on the bus, the loop stays in the
    charging state with epoch 0, pushes no record and commands no relay
    after the prologue. *)
Theorem upper_threshold_above_range_never_discharges cfg t0 xs :
  4095 < threshold_upper cfg ->
  Forall (fun x => reply_ok (fst (fst x))) xs ->
  let r := loop cfg (initial_locals t0) (map read_adc xs) in
  state (fst r) = charging /\
  epoch (fst r) = 0 /\
  puts (snd r) = [] /\
  existsb is_relay_command (snd r) = false.
Proof.
  intros Hu Hok r.
  assert (Hq : forallb (quiet cfg (state (initial_locals t0)))
                 (map read_adc xs) = true).
  { apply forallb_forall. intros i Hi.
    apply in_map_iff in Hi as (x & <- & Hx).
    rewrite Forall_forall in Hok.
    apply read_adc_quiet; [exact Hu | now apply Hok]. }
  destruct (quiet_run cfg _ _ Hq) as (H1 & H2 & H4 & H5).
  repeat split; try assumption. now apply H5.
Qed.

Lemma upper_threshold_above_range_never_discharges_witness :
  state
    (fst (loop (mkConfig 5000 100 (mkTimespec 0 100000000) 49)
            (initial_locals Scenario.t0)
            (map read_adc
               [(mkReply 0xff 0xff 0xff, mkTimespec 5 100000,
                 mkTimespec 5 200000)])))
  = charging.
Proof.
  apply (upper_threshold_above_range_never_discharges
           (mkConfig 5000 100 (mkTimespec 0 100000000) 49) Scenario.t0
           [(mkReply 0xff 0xff 0xff, mkTimespec 5 100000,
             mkTimespec 5 200000)]).
  - cbn. lia.
  - repeat constructor; cbn; lia.
Defined.

(** ** low-energy-meter.c: [main] and [die] *)

Section MainPaths.

Variable interval_of_frequency_arg : string -> timespec.

Lemma store_option_question a c optarg :
  store_option a c optarg = None <-> c = "?"%char.
Proof.
  unfold store_option.
  destruct (Ascii.eqb_spec c "f") as [-> | Hf];
    [split; intros; discriminate |].
  destruct (Ascii.eqb_spec c "o") as [-> | Ho];
    [split; intros; discriminate |].
  destruct (Ascii.eqb_spec c "l") as [-> | Hl];
    [split; intros; discriminate |].
  destruct (Ascii.eqb_spec c "u") as [-> | Hu];
    [split; intros; discriminate |].
  destruct (Ascii.eqb_spec c "p") as [-> | Hp];
    [split; intros; discriminate |].
  destruct (Ascii.eqb_spec c "?") as [-> | Hq].
  - split; intros; reflexivity.
  - split; intros; congruence.
Qed.

Lemma parse_options_app a x :
  forall y,
    parse_options a (x ++ y)
    = match parse_options a x with
      | Some a' => parse_options a' y
      | None => None
      end.
Proof.
  revert a. induction x as [| [c v] x IH]; intros a y; [reflexivity |].
  cbn [app parse_options].
  destruct (store_option a c v); [apply IH | reflexivity].
Qed.

Lemma parse_options_none opts :
  forall a,
    parse_options a opts = None <-> In "?"%char (map fst opts).
Proof.
  induction opts as [| [c v] opts IH]; intros a; cbn [parse_options map fst In].
  - split; [discriminate | contradiction].
  - destruct (store_option a c v) as [a' |] eqn:E.
    + rewrite IH. split; [now right |].
      intros [-> | H]; [| exact H].
      assert (store_option a "?" v = None) by (now apply store_option_question).
      congruence.
    + apply store_option_question in E. split; [now left | reflexivity].
Qed.

Lemma store_letter a c v :
  is_option_letter c = true ->
  exists a',
    store_option a c v = Some a' /\ arg_of c a' = Some v /\
    forall c', c' <> c -> arg_of c' a' = arg_of c' a.
Proof.
  unfold is_option_letter. rewrite !orb_true_iff.
  intros [[[[H | H] | H] | H] | H]; apply Ascii.eqb_eq in H; subst c;
    (eexists; split; [reflexivity |]; split; [reflexivity |]);
    intros c' Hc'; unfold arg_of;
    repeat match goal with
           | |- context [(c' =? ?x)%char] =>
               destruct (Ascii.eqb_spec c' x); [subst c'; try reflexivity; congruence |]
           end; reflexivity.
Qed.

End MainPaths.

(** X12. The option loop of [main]: it dies exactly when [getopt] reports
    ['?'] for some option; it handles a command line piece by piece; and
    for each of the letters f, o, l, u, p the last occurrence wins, leaving
    the other arguments as they were. *)
Theorem parse_options_last_wins a opts :
  (parse_options a opts = None <-> In "?"%char (map fst opts)) /\
  (forall x y,
      parse_options a (x ++ y)
      = match parse_options a x with
        | Some a' => parse_options a' y
        | None => None
        end) /\
  (forall c v a0,
      is_option_letter c = true ->
      parse_options a opts = Some a0 ->
      exists a',
        parse_options a (opts ++ [(c, v)]) = Some a' /\
        arg_of c a' = Some v /\
        forall c', c' <> c -> arg_of c' a' = arg_of c' a0).
Proof.
  split; [apply parse_options_none |].
  split; [intros x y; apply parse_options_app |].
  intros c v a0 Hc Hp.
  rewrite parse_options_app, Hp. cbn [parse_options].
  destruct (store_letter a0 c v Hc) as (a' & E & Hv & Ho).
  rewrite E. now exists a'.
Qed.

Lemma parse_options_last_wins_witness :
  exists a',
    parse_options no_arguments
      (Scenario.inverted_thresholds ++ [("u"%char, "3500"%string)])
    = Some a' /\
    arg_of "u" a' = Some "3500"%string.
Proof.
  destruct (parse_options_last_wins no_arguments Scenario.inverted_thresholds)
    as (_ & _ & H).
  destruct (H "u"%char "3500"%string
              (mkArguments (Some "10"%string) (Some "log.csv"%string)
                 (Some "100"%string) (Some "3000"%string) None))
    as (a' & E & Hv & _).
  - reflexivity.
  - reflexivity.
  - exists a'. split; assumption.
Defined.

(** X13. Every way out of [main] during start-up is a failure with status
    -1, and [exit] is the last thing that happens.  Before it, exactly what
    had been acquired is released, in the order log file, SPI, bcm2835
    library: the file if [fopen] was reached and succeeded, the SPI if
    [bcm2835_spi_begin] was reached, the library if [bcm2835_init] was
    reached and succeeded. *)
Theorem main_exit_releases_what_it_acquired
    (interval_of_frequency_arg : string -> timespec) opts env status :
  let tr := fst (main interval_of_frequency_arg opts env) in
  snd (main interval_of_frequency_arg opts env) = Exited status ->
  status = -1 /\
  last tr EUsage = EExit (-1) /\
  filter is_release tr
  = (if existsb is_fopen tr && fopen_ok env then [EFclose] else [])
      ++ (if existsb is_spi_begin tr then [ESpiEnd] else [])
      ++ (if existsb is_bcm_init tr && bcm2835_init_ok env
          then [EBcmClose] else []).
Proof.
  unfold main.
  destruct (parse_options no_arguments opts) as [a |];
    [| cbn; intros [= <-]; repeat split].
  destruct (sampling_frequency_arg a), (logfile_arg a),
    (threshold_lower_arg a), (threshold_upper_arg a);
    try (cbn; intros [= <-]; repeat split; fail).
  unfold bring_up.
  destruct env as [[] [] [] [] [] []];
    cbn; intros H; try discriminate H; injection H as <-; repeat split.
Qed.

Lemma main_exit_releases_what_it_acquired_witness :
  filter is_release
    (fst (main (fun _ => mkTimespec 0 100000000) Scenario.inverted_thresholds
            (mkEnvironment true true false true true true)))
  = [EFclose; ESpiEnd; EBcmClose].
Proof.
  destruct (main_exit_releases_what_it_acquired
              (fun _ => mkTimespec 0 100000000) Scenario.inverted_thresholds
              (mkEnvironment true true false true true true) (-1))
    as (_ & _ & H).
  - reflexivity.
  - exact H.
Defined.

(** X14. [main] and [die] never close a relay.  [main] issues no
    [bcm2835_gpio_set] on any path, and when it reaches the threads both
    relays are commanded open, whatever their levels were before.  [die]
    issues no GPIO command at all: the relays keep the levels last
    commanded when the process ends. *)
Theorem main_and_die_never_close_a_relay
    (interval_of_frequency_arg : string -> timespec) opts env r0 g status :
  existsb is_gpio_set (fst (main interval_of_frequency_arg opts env))
  = false /\
  (forall cfg,
      snd (main interval_of_frequency_arg opts env) = Running cfg ->
      relays_after r0 (fst (main interval_of_frequency_arg opts env))
      = mkRelays false false) /\
  existsb is_relay_command (die g status) = false /\
  relays_after r0 (die g status) = r0.
Proof.
  split; [| split; [| split]].
  - unfold main.
    destruct (parse_options no_arguments opts) as [a |]; [| reflexivity].
    destruct (sampling_frequency_arg a), (logfile_arg a),
      (threshold_lower_arg a), (threshold_upper_arg a); try reflexivity.
    unfold bring_up. destruct env as [[] [] [] [] [] []]; reflexivity.
  - intros cfg. unfold main.
    destruct (parse_options no_arguments opts) as [a |]; [| discriminate].
    destruct (sampling_frequency_arg a), (logfile_arg a),
      (threshold_lower_arg a), (threshold_upper_arg a); try discriminate.
    unfold bring_up. destruct env as [[] [] [] [] [] []];
      cbn; intros H; try discriminate H; reflexivity.
  - destruct g as [[] [] []]; reflexivity.
  - destruct g as [[] [] []]; reflexivity.
Qed.

Lemma main_and_die_never_close_a_relay_witness :
  relays_after (mkRelays true true)
    (fst (main (fun _ => mkTimespec 0 100000000) Scenario.inverted_thresholds
            Scenario.all_calls_succeed))
  = mkRelays false false.
Proof.
  destruct (main_and_die_never_close_a_relay
              (fun _ => mkTimespec 0 100000000) Scenario.inverted_thresholds
              Scenario.all_calls_succeed (mkRelays true true)
              nothing_open 0) as (_ & H & _).
  apply (H (mkConfig 100 3000 (mkTimespec 0 100000000) 49)).
  reflexivity.
Defined.

Lemma to_int32_range z : - 2 ^ 31 <= to_int32 z < 2 ^ 31.
Proof.
  unfold to_int32.
  change (2 ^ 31) with 2147483648. change (2 ^ 32) with 4294967296.
  pose proof (Z.mod_pos_bound z 4294967296 ltac:(lia)).
  destruct (Z.ltb_spec (z mod 4294967296) 2147483648); lia.
Qed.

(** X15. [main] gets past all its own checks, none of its calls of [die]
    being reached, exactly when the option loop ends without ['?'], the
    four required arguments are there and each of the six checked calls
    succeeds.  Then its own trace is the full start-up in its fixed
    order (library, SPI, relay pins, log file, ring, memory lock,
    stack, sampling thread, logger thread, signal handler); the thresholds
    are the [atoi] values reduced to [uint16_t], so they lie between 0 and
    65535, and the priority is an [int]. *)
Theorem main_runs_iff_all_succeeds
    (interval_of_frequency_arg : string -> timespec) opts env :
  ((exists cfg,
       snd (main interval_of_frequency_arg opts env) = Running cfg) <->
   (exists a,
       parse_options no_arguments opts = Some a /\
       required_missing a = false /\ all_calls_ok env = true)) /\
  (forall cfg,
      snd (main interval_of_frequency_arg opts env) = Running cfg ->
      exists a f o l u,
        parse_options no_arguments opts = Some a /\
        sampling_frequency_arg a = Some f /\ logfile_arg a = Some o /\
        threshold_lower_arg a = Some l /\ threshold_upper_arg a = Some u /\
        cfg = configure interval_of_frequency_arg f l u
                (task_priority_arg a) /\
        fst (main interval_of_frequency_arg opts env) = full_start_up o /\
        0 <= threshold_upper cfg < 65536 /\
        0 <= threshold_lower cfg < 65536 /\
        - 2 ^ 31 <= task_priority cfg < 2 ^ 31).
Proof.
  unfold main.
  destruct (parse_options no_arguments opts) as [a |].
  2:{ split.
      - split; [intros [cfg H]; discriminate H
               | intros (a & H & _); discriminate H].
      - intros cfg H; discriminate H. }
  unfold required_missing.
  destruct (sampling_frequency_arg a) as [f |] eqn:Ef,
    (logfile_arg a) as [o |] eqn:Eo,
    (threshold_lower_arg a) as [l |] eqn:El,
    (threshold_upper_arg a) as [u |] eqn:Eu;
    try (split;
         [ split; [intros [cfg H]; discriminate H
                  | intros (a' & [= <-] & H & _);
                    rewrite ?Ef, ?Eo, ?El, ?Eu in H; discriminate H]
         | intros cfg H; discriminate H ]).
  split.
  - split.
    + intros [cfg H]. exists a. rewrite Ef, Eo, El, Eu.
      split; [reflexivity |]. split; [reflexivity |].
      revert H. unfold bring_up, all_calls_ok.
      destruct env as [[] [] [] [] [] []]; cbn; intros H;
        try discriminate H; reflexivity.
    + intros (a' & [= <-] & _ & Hok).
      unfold all_calls_ok in Hok. unfold bring_up.
      destruct env as [[] [] [] [] [] []]; cbn in Hok; try discriminate Hok.
      cbn. eexists. reflexivity.
  - intros cfg H. exists a, f, o, l, u.
    split; [reflexivity |].
    do 4 (split; [assumption |]).
    revert H. unfold bring_up.
    destruct env as [[] [] [] [] [] []]; cbn; intros H;
      try discriminate H; injection H as <-.
    split; [reflexivity |]. split; [reflexivity |].
    cbn [configure threshold_upper threshold_lower task_priority].
    unfold to_uint16.
    split; [apply Z.mod_pos_bound; lia |].
    split; [apply Z.mod_pos_bound; lia |].
    destruct (task_priority_arg a); [apply to_int32_range |].
    unfold DEFAULT_TASK_PRIORITY. lia.
Qed.

Lemma main_runs_iff_all_succeeds_witness :
  exists a,
    parse_options no_arguments Scenario.negative_frequency = Some a /\
    required_missing a = false /\
    all_calls_ok Scenario.all_calls_succeed = true.
Proof.
  apply (main_runs_iff_all_succeeds (fun _ => mkTimespec 0 100000000)
           Scenario.negative_frequency Scenario.all_calls_succeed).
  eexists. reflexivity.
Defined.

(** ** low-energy-meter.c: the log *)

Section Log.
Import Logger.
Local Open Scope string_scope.

Lemma string_app_assoc s1 s2 s3 : (s1 ++ s2) ++ s3 = s1 ++ (s2 ++ s3).
Proof.
  induction s1 as [| c s1 IH]; [reflexivity |].
  cbn. now rewrite IH.
Qed.

Lemma string_forall_app p s1 s2 :
  string_forall p (s1 ++ s2) = string_forall p s1 && string_forall p s2.
Proof.
  induction s1 as [| c s1 IH]; [reflexivity |].
  cbn. now rewrite IH, andb_assoc.
Qed.

Lemma string_forall_impl (p q : ascii -> bool) s :
  (forall c, p c = true -> q c = true) ->
  string_forall p s = true -> string_forall q s = true.
Proof.
  intros Hpq. induction s as [| c s IH]; [reflexivity |].
  cbn. rewrite !andb_true_iff. intros [Hc Hs]. split; auto.
Qed.

Lemma uint_chars d :
  string_forall is_number_char (NilEmpty.string_of_uint d) = true.
Proof. induction d; cbn; auto. Qed.

Lemma decimal_chars z : string_forall is_number_char (decimal z) = true.
Proof.
  unfold decimal.
  destruct (Z.to_int z) as [d | d]; cbn [NilZero.string_of_int].
  - destruct d; try reflexivity; apply (uint_chars (_ d)) || apply uint_chars.
  - cbn [string_forall]. apply andb_true_iff. split; [reflexivity |].
    destruct d; try reflexivity; apply uint_chars.
Qed.

Lemma number_decimal z : number (decimal z) = Some z.
Proof.
  unfold number, decimal.
  rewrite NilZero.isi.
  - cbn [option_map]. now rewrite DecimalZ.of_to.
  - destruct z; cbn; try discriminate;
      intros [= H]; now apply (Unsigned.to_uint_nonnil p).
  - destruct z; cbn; try discriminate;
      intros [= H]; now apply (Unsigned.to_uint_nonnil p).
Qed.

Lemma fields_whole sep s :
  string_forall (fun c => negb (c =? sep)%char) s = true ->
  fields sep s = [s].
Proof.
  induction s as [| c s IH]; [reflexivity |].
  cbn. rewrite andb_true_iff, negb_true_iff. intros [Hc Hs].
  now rewrite Hc, IH.
Qed.

Lemma fields_cut sep s1 s2 :
  string_forall (fun c => negb (c =? sep)%char) s1 = true ->
  fields sep (s1 ++ String sep s2) = s1 :: fields sep s2.
Proof.
  induction s1 as [| c s1 IH].
  - intros _. cbn. now rewrite Ascii.eqb_refl.
  - cbn. rewrite andb_true_iff, negb_true_iff. intros [Hc Hs].
    now rewrite Hc, IH.
Qed.

Lemma decimal_no sep z :
  is_number_char sep = false ->
  string_forall (fun c => negb (c =? sep)%char) (decimal z) = true.
Proof.
  intros Hsep. apply (string_forall_impl is_number_char).
  - intros c Hc. apply negb_true_iff.
    destruct (Ascii.eqb_spec c sep); [congruence | reflexivity].
  - apply decimal_chars.
Qed.

Lemma parse_log_line sample t epoch :
  parse_line (log_line sample t epoch) = Some (mkEntry t sample epoch).
Proof.
  unfold parse_line, log_line.
  rewrite fields_cut by (now apply decimal_no).
  rewrite fields_cut by (now apply decimal_no).
  rewrite fields_whole by (now apply decimal_no).
  now rewrite !number_decimal.
Qed.

Lemma log_line_no_newline sample t epoch :
  string_forall (fun c => negb (c =? newline)%char)
    (log_line sample t epoch) = true.
Proof.
  unfold log_line.
  rewrite string_forall_app. cbn [string_forall].
  rewrite string_forall_app. cbn [string_forall].
  rewrite !decimal_no by reflexivity. reflexivity.
Qed.

Lemma fields_log entries :
  fields newline (logger_thread_loop entries)
  = (map (fun e => log_line (Ring.value e) (Ring.timestamp e) (Ring.epoch e))
       entries ++ [EmptyString])%list.
Proof.
  induction entries as [| e rest IH]; [reflexivity |].
  cbn [logger_thread_loop map]. unfold log_sample.
  rewrite string_app_assoc. cbn [String.append].
  rewrite fields_cut by apply log_line_no_newline.
  now rewrite IH.
Qed.

Lemma parse_lines_log entries :
  parse_lines
    (map (fun e => log_line (Ring.value e) (Ring.timestamp e) (Ring.epoch e))
       entries ++ [EmptyString])%list
  = Some entries.
Proof.
  induction entries as [| e rest IH]; [reflexivity |].
  cbn [map List.app parse_lines].
  rewrite parse_log_line, IH.
  destruct e as [t v ep]. cbn [Ring.value Ring.timestamp Ring.epoch].
  destruct (map _ rest ++ [EmptyString])%list eqn:E; [| reflexivity].
  destruct rest; discriminate E.
Qed.

End Log.

(** X16. The log can be read back.  A line written by [log_sample] has
    three comma-separated decimal fields, the time stamp, the epoch and the
    sample in this order, and parses to the record it was written from; the
    text [logger_thread_loop] writes for a sequence of entries parses, line
    by line, to exactly that sequence. *)
Theorem log_reads_back entries sample t epoch :
  Logger.fields Logger.comma (Logger.log_line sample t epoch)
  = [Logger.decimal t; Logger.decimal epoch; Logger.decimal sample] /\
  Logger.parse_line (Logger.log_line sample t epoch)
  = Some (mkEntry t sample epoch) /\
  Logger.parse_log (Logger.log_sample sample t epoch)
  = Some [mkEntry t sample epoch] /\
  Logger.parse_log (Logger.logger_thread_loop entries) = Some entries.
Proof.
  split.
  { unfold Logger.log_line.
    rewrite fields_cut by (now apply decimal_no).
    rewrite fields_cut by (now apply decimal_no).
    now rewrite fields_whole by (now apply decimal_no). }
  split; [apply parse_log_line |].
  assert (H : forall es,
             Logger.parse_log (Logger.logger_thread_loop es) = Some es).
  { intros es. unfold Logger.parse_log.
    rewrite fields_log. apply parse_lines_log. }
  split; [| apply H].
  specialize (H [mkEntry t sample epoch]).
  cbn [Logger.logger_thread_loop Ring.value Ring.timestamp Ring.epoch] in H.
  rewrite <- H. f_equal.
  generalize (Logger.log_sample sample t epoch).
  intros s. induction s as [| c s IH]; [reflexivity |].
  cbn. now rewrite <- IH.
Qed.

(** ** low-energy-meter.c: the two thresholds together *)

(** X17. With the lower threshold below the upper one the loop has
    hysteresis: a sample value that has just switched the state does not
    switch it back when it is read again.  [main] does not check the order,
    and with the lower threshold at or above the upper one every sample
    value from the upper to the lower threshold switches the state, and so
    the relays, in every iteration. *)
Theorem thresholds_give_hysteresis cfg st i j :
  sample_value j = sample_value i ->
  (threshold_lower cfg < threshold_upper cfg ->
   state (fst (loop_body cfg st i)) <> state st ->
   state (fst (loop_body cfg (fst (loop_body cfg st i)) j))
   = state (fst (loop_body cfg st i))) /\
  (sample_value i <> -1 ->
   threshold_upper cfg <= sample_value i <= threshold_lower cfg ->
   state (fst (loop_body cfg st i)) <> state st /\
   state (fst (loop_body cfg (fst (loop_body cfg st i)) j)) = state st /\
   existsb is_gpio_set (snd (loop_body cfg st i)) = true /\
   existsb is_gpio_set (snd (loop_body cfg (fst (loop_body cfg st i)) j))
   = true).
Proof.
  intros Hj. split.
  - intros Hord.
    by_branch cfg st i; cbn [fst state]; rewrite ?Hs; intros Hchg;
      try congruence.
    + rewrite loop_body_discharging; cbn [state]; try reflexivity; lia.
    + rewrite loop_body_charging; cbn [state]; try reflexivity; lia.
  - intros Hn [Hu Hl].
    destruct (state st) eqn:Hs.
    + rewrite (loop_body_charged cfg st i Hn Hs Hu). cbn [fst snd state].
      rewrite loop_body_discharged; cbn [state fst snd]; try reflexivity;
        try lia.
      repeat split. discriminate.
    + rewrite (loop_body_discharged cfg st i Hn Hs Hl). cbn [fst snd state].
      rewrite loop_body_charged; cbn [state fst snd]; try reflexivity;
        try lia.
      repeat split. discriminate.
Qed.

Lemma thresholds_give_hysteresis_witness :
  state
    (fst (loop_body Scenario.cfg
            (fst (loop_body Scenario.cfg (initial_locals Scenario.t0)
                    Scenario.at_3100))
            Scenario.at_3100))
  = discharging /\
  state
    (fst (loop_body (mkConfig 100 3000 (mkTimespec 0 100000000) 49)
            (fst (loop_body (mkConfig 100 3000 (mkTimespec 0 100000000) 49)
                    (initial_locals Scenario.t0) Scenario.at_2000))
            Scenario.at_2000))
  = charging.
Proof.
  split.
  - apply (thresholds_give_hysteresis Scenario.cfg
             (initial_locals Scenario.t0) Scenario.at_3100 Scenario.at_3100).
    + reflexivity.
    + cbn. lia.
    + cbn. discriminate.
  - apply (thresholds_give_hysteresis
             (mkConfig 100 3000 (mkTimespec 0 100000000) 49)
             (initial_locals Scenario.t0) Scenario.at_2000 Scenario.at_2000).
    + reflexivity.
    + cbn. lia.
    + cbn. lia.
Defined.
